(** * Room timeline decryption and gap filling of hydrogen-web

    A shallow embedding of [src/matrix/room/BaseRoom.js] and of
    [iterateResponseStateEvents] from [src/matrix/room/common.ts].

    The asynchronous methods of [BaseRoom] are embedded as programs of a
    small free monad [Prog].  A program reads and updates the shared state
    (the room, the decryption request, the entry objects), calls its
    collaborators synchronously, and suspends at every [await].  While a
    program is suspended other tasks run: they may dispose the decryption
    request, open or close the live timeline, or start observing events.
    The promise that is awaited settles the way the environment decides. *)

From stdpp Require Import base option list strings gmap.

Set Default Proof Using "Type".

(** ** Matrix events *)

Inductive JsValue :=
| JsUndefined
| JsNull
| JsBoolean (b : bool)
| JsNumber (z : Z)
| JsString (s : string).

Definition typeof (v : JsValue) : string :=
  match v with
  | JsUndefined => "undefined"
  | JsNull => "object"
  | JsBoolean _ => "boolean"
  | JsNumber _ => "number"
  | JsString _ => "string"
  end%string.

(** The session an encrypted event was sent in. *)
Record SessionRef := { senderKey : string; sessionId : string }.

Record MatrixEvent := {
  event_id : string;
  type : string;
  state_key : JsValue;
  session : option SessionRef
}.

Record RoomKey := { key_roomId : string; key_session : SessionRef }.

Global Instance SessionRef_eq_dec : EqDecision SessionRef.
Proof. solve_decision. Defined.

Definition EVENT_ENCRYPTED_TYPE : string := "m.room.encrypted".

(** ** common.ts: state events of a sync room response *)

Record ResponseSection := { events : option (list MatrixEvent) }.

Record RoomResponse := {
  state : option ResponseSection;
  timeline : option ResponseSection
}.

(** [iterateResponseStateEvents]; the callback acts on a state [S] of the
    caller, which is threaded through the invocations. *)
Definition iterateResponseStateEvents {S : Type}
    (roomResponse : RoomResponse) (callback : MatrixEvent → S → S) (s : S) : S :=
  let stateEvents := state roomResponse ≫= events in
  let s :=
    match stateEvents with
    | Some stateEvents => foldl (λ s event, callback event s) s stateEvents
    | None => s
    end in
  let timelineEvents := timeline roomResponse ≫= events in
  match timelineEvents with
  | Some timelineEvents =>
      foldl (λ s event,
               if String.eqb (typeof (state_key event)) "string"
               then callback event s else s) s timelineEvents
  | None => s
  end.

(** The events of a section, none when the section or its array is absent. *)
Definition sectionEvents (section : option ResponseSection) : list MatrixEvent :=
  default [] (section ≫= events).

Definition hasStringStateKey (event : MatrixEvent) : bool :=
  match state_key event with JsString _ => true | _ => false end.

(** ** Storage *)

Inductive StoreName :=
| timelineEvents
| inboundGroupSessions
| groupSessionDecryptions
| deviceIdentities
| pendingEvents
| timelineFragments.

Global Instance StoreName_eq_dec : EqDecision StoreName.
Proof. solve_decision. Defined.

Record StorageEntry := {
  entry_roomId : string;
  event : MatrixEvent;
  fragmentId : nat;
  eventIndex : nat
}.

Inductive StoreValue :=
| TimelineEventValue (e : StorageEntry)
| OpaqueValue (n : nat).

Record StoreRecord := { rec_store : StoreName; rec_value : StoreValue }.

Inductive TxnMode := ReadOnly | ReadWrite.
Inductive TxnStatus := TxnOpen | TxnCommitted | TxnAborted.

Record Txn := {
  txn_mode : TxnMode;
  txn_stores : list StoreName;
  txn_pending : list StoreRecord;
  txn_status : TxnStatus
}.

Definition TxnId := nat.

Record Storage := {
  committed : list StoreRecord;
  txns : list Txn
}.

(** Modelled from the spec: the storage engine is not part of the sources;
    its transaction contract is [readTxn(storeNames) /
    readWriteTxn(storeNames) → Transaction], where [txn.complete()] commits
    and [txn.abort()] discards all writes in that transaction, and a
    transaction exposes the stores it was opened over. *)
Definition openTxn (mode : TxnMode) (stores : list StoreName) (st : Storage)
    : Storage * TxnId :=
  ({| committed := committed st;
      txns := txns st ++ [ {| txn_mode := mode; txn_stores := stores;
                              txn_pending := []; txn_status := TxnOpen |} ] |},
   length (txns st)).

Definition writable (t : Txn) : bool :=
  match txn_mode t, txn_status t with
  | ReadWrite, TxnOpen => true
  | _, _ => false
  end.

Definition inScope (t : Txn) (r : StoreRecord) : bool :=
  bool_decide (rec_store r ∈ txn_stores t).

Definition putAll (records : list StoreRecord) (t : Txn) : Txn :=
  if writable t
  then {| txn_mode := txn_mode t; txn_stores := txn_stores t;
          txn_pending := txn_pending t ++ filter (λ r, inScope t r = true) records;
          txn_status := txn_status t |}
  else t.

Definition withStatus (s : TxnStatus) (pending : list StoreRecord) (t : Txn) : Txn :=
  {| txn_mode := txn_mode t; txn_stores := txn_stores t;
     txn_pending := pending; txn_status := s |}.

Definition txnPut (id : TxnId) (records : list StoreRecord) (st : Storage) : Storage :=
  {| committed := committed st; txns := alter (putAll records) id (txns st) |}.

Definition txnAbort (id : TxnId) (st : Storage) : Storage :=
  {| committed := committed st;
     txns := alter (withStatus TxnAborted []) id (txns st) |}.

Definition txnIsOpen (id : TxnId) (st : Storage) : bool :=
  match txns st !! id with
  | Some t => match txn_status t with TxnOpen => true | _ => false end
  | None => false
  end.

Definition txnComplete (id : TxnId) (st : Storage) : Storage :=
  match txns st !! id with
  | Some t =>
      {| committed := committed st ++ txn_pending t;
         txns := <[id := withStatus TxnCommitted (txn_pending t) t]> (txns st) |}
  | None => st
  end.

Definition isTimelineEvent (roomId eventId : string) (r : StoreRecord) : option StorageEntry :=
  match rec_store r, rec_value r with
  | timelineEvents, TimelineEventValue e =>
      if String.eqb (entry_roomId e) roomId && String.eqb (event_id (event e)) eventId
      then Some e else None
  | _, _ => None
  end.

(** [txn.timelineEvents.getByEventId(roomId, eventId)]: timeline events are
    keyed by room id and event id. *)
Fixpoint getByEventId (records : list StoreRecord) (roomId eventId : string)
    : option StorageEntry :=
  match records with
  | [] => None
  | r :: records =>
      match isTimelineEvent roomId eventId r with
      | Some e => Some e
      | None => getByEventId records roomId eventId
      end
  end.

(** ** Entry objects *)

Inductive DecryptionState :=
| Undecrypted
| Decrypting
| Decrypted
| Failed (reason : string).

(** An [EventEntry] object.  Entries are mutable objects that the live
    timeline, the retry batches and the decryption requests refer to, so
    they live in a heap and are referred to by location. *)
Record EventEntry := {
  _eventEntry : StorageEntry;
  decryptionState : DecryptionState
}.

Definition Loc := nat.
Definition Heap := list EventEntry.

Definition entryId (e : EventEntry) : string := event_id (event (_eventEntry e)).

(** Modelled from the spec: [EventEntry.js] is not part of the sources; an
    entry carries the raw event fields, [eventType] is the type of its event. *)
Definition eventType (e : EventEntry) : string := type (event (_eventEntry e)).

(** [new EventEntry(storageEntry, fragmentIdComparer)] *)
Definition newEventEntry (storageEntry : StorageEntry) : EventEntry :=
  {| _eventEntry := storageEntry; decryptionState := Undecrypted |}.

Definition alloc (e : EventEntry) (h : Heap) : Heap * Loc := (h ++ [e], length h).

Definition allocAll (es : list EventEntry) (h : Heap) : Heap * list Loc :=
  (h ++ es, seq (length h) (length es)).

(** The results of a decryption, by event id. *)
Record Decryption := { results : gmap string DecryptionState }.

Definition setDecryptionResult (d : Decryption) (e : EventEntry) : EventEntry :=
  match results d !! entryId e with
  | Some s => {| _eventEntry := _eventEntry e; decryptionState := s |}
  | None => e
  end.

(** Modelled from the spec: [decryption.applyToEntries(entries)] applies the
    results to the entry objects in place, marking them decrypted or failed. *)
Definition applyToEntries (d : Decryption) (entries : list Loc) (h : Heap) : Heap :=
  foldl (λ h l, alter (setDecryptionResult d) l h) h entries.

Definition isDecrypted (e : EventEntry) : bool :=
  match decryptionState e with Decrypted => true | _ => false end.

Definition matchesKey (e : EventEntry) (key : RoomKey) : bool :=
  bool_decide (session (event (_eventEntry e)) = Some (key_session key)).

(** Modelled from the spec: [RoomEncryption] is not part of the sources;
    [filterUndecryptedEventEntriesForKeys(entries, keys) → entries] keeps the
    entries that are encrypted, not decrypted, and blocked on one of the keys. *)
Definition blockedOnKeys (roomKeys : list RoomKey) (e : EventEntry) : bool :=
  String.eqb (eventType e) EVENT_ENCRYPTED_TYPE
  && negb (isDecrypted e)
  && existsb (matchesKey e) roomKeys.

Definition filterUndecryptedEventEntriesForKeys
    (h : Heap) (entries : list Loc) (roomKeys : list RoomKey) : list Loc :=
  filter (λ l, (blockedOnKeys roomKeys <$> h !! l) = Some true) entries.

(** ** The room, the decryption request, and the world they live in *)

Record Fragment := { id : nat; previousId : option nat; nextId : option nat }.

Record Timeline := { remoteEntries : list Loc }.

Record BaseRoom := {
  _roomId : string;
  _timeline : option Timeline;
  (** whether [this._roomEncryption] is set *)
  _roomEncryption : bool;
  (** whether [this._observedEvents] is set *)
  _observedEvents : bool;
  (** the fragments added to [this._fragmentIdComparer] *)
  _fragmentIdComparer : list Fragment
}.

Definition Preparation := nat.
Definition DecryptionChanges := nat.

Record DecryptionRequest := {
  _cancelled : bool;
  preparation : option Preparation
}.

Record World := {
  room : BaseRoom;
  request : DecryptionRequest;
  storage : Storage;
  heap : Heap
}.

Definition setRoom (r : BaseRoom) (w : World) : World :=
  {| room := r; request := request w; storage := storage w; heap := heap w |}.
Definition setRequest (r : DecryptionRequest) (w : World) : World :=
  {| room := room w; request := r; storage := storage w; heap := heap w |}.
Definition setStorage (s : Storage) (w : World) : World :=
  {| room := room w; request := request w; storage := s; heap := heap w |}.
Definition setHeap (h : Heap) (w : World) : World :=
  {| room := room w; request := request w; storage := storage w; heap := h |}.

Definition setTimeline (t : option Timeline) (r : BaseRoom) : BaseRoom :=
  {| _roomId := _roomId r; _timeline := t; _roomEncryption := _roomEncryption r;
     _observedEvents := _observedEvents r;
     _fragmentIdComparer := _fragmentIdComparer r |}.
Definition setObservedEvents (b : bool) (r : BaseRoom) : BaseRoom :=
  {| _roomId := _roomId r; _timeline := _timeline r;
     _roomEncryption := _roomEncryption r; _observedEvents := b;
     _fragmentIdComparer := _fragmentIdComparer r |}.
Definition addFragment (f : Fragment) (r : BaseRoom) : BaseRoom :=
  {| _roomId := _roomId r; _timeline := _timeline r;
     _roomEncryption := _roomEncryption r; _observedEvents := _observedEvents r;
     _fragmentIdComparer := _fragmentIdComparer r ++ [f] |}.

(** [get _isTimelineOpen() { return !!this._timeline; }] *)
Definition _isTimelineOpen (r : BaseRoom) : bool :=
  match _timeline r with Some _ => true | None => false end.

(** ** Calls to collaborators *)

Inductive DecryptionSource := Sync | TimelineSource | Retry.

Inductive Direction := Backward | Forward.

Definition asApiString (d : Direction) : string :=
  match d with Backward => "b" | Forward => "f" end%string.

Record FragmentEntry := {
  fe_fragmentId : nat;
  direction : Direction;
  token : string;
  edgeReached : bool
}.

Record MessagesResponse := { chunk : list MatrixEvent; response_end : option string }.

Definition GapFillChanges := nat.

Record GapResult := {
  entries : list Loc;
  updatedEntries : list Loc;
  fragments : list Fragment
}.

Inductive Error :=
| JsError (message : string)
| TypeError (message : string)
| Failure (code : nat).

(** Synchronous calls; each returns [undefined]. *)
Inductive SyncCall :=
| LogSet (key : string) (value : JsValue)
| NewDecryptionRequest (source : DecryptionSource) (batch : list Loc)
| TxnAbort (txn : TxnId)
| PreparationDispose (p : Preparation)
| ApplyToEntries (d : Decryption) (batch : list Loc)
| UpdateEvents (batch : list Loc)
| TimelineReplaceEntries (batch : list Loc)
| TimelineAddOrReplaceEntries (batch : list Loc)
| TimelineEnableEncryption (source : DecryptionSource)
| TimelineDispose
| NotifyTimelineClosed
| ComparerAdd (f : Fragment)
| ApplyGapFill (changes : GapFillChanges)
| SummaryApplyTimelineEntries (batch : list Loc)
| EmitUpdate.

(** Calls that return a promise which the caller awaits. *)
Inductive AsyncCall :=
| ReadTxn (stores : list StoreName)
| ReadWriteTxn (stores : list StoreName)
| GetByEventId (txn : TxnId) (roomId eventId : string)
| GetEventIdsForMissingKey (key : RoomKey) (txn : TxnId)
| PrepareDecryptAll (evs : list MatrixEvent) (source : DecryptionSource) (txn : TxnId)
| PreparationDecrypt (p : Preparation)
| ChangesWrite (changes : DecryptionChanges) (txn : TxnId)
| VerifySenders (d : Decryption) (txn : TxnId)
| TxnComplete (txn : TxnId)
| HsApiMessages (roomId from dir : string) (limit : nat)
| WriteGapFill (evs : list MatrixEvent) (txn : TxnId)
| WriteFragmentFill (fragmentEntry : FragmentEntry) (response : MessagesResponse) (txn : TxnId)
| TimelineLoad
| SummaryWriteAndApplyData (batch : list Loc).

(** What the promise of a call resolves to. *)
Definition Resolved (c : AsyncCall) : Type :=
  match c with
  | ReadTxn _ | ReadWriteTxn _ => TxnId
  | GetByEventId _ _ _ => option StorageEntry
  | GetEventIdsForMissingKey _ _ => option (list string)
  | PrepareDecryptAll _ _ _ => Preparation
  | PreparationDecrypt _ => DecryptionChanges
  | ChangesWrite _ _ => Decryption
  | VerifySenders _ _ => unit
  | TxnComplete _ => unit
  | HsApiMessages _ _ _ _ => MessagesResponse
  | WriteGapFill _ _ => option GapFillChanges
  | WriteFragmentFill _ _ _ => GapResult
  | TimelineLoad => unit
  | SummaryWriteAndApplyData _ => bool
  end.

Inductive Outcome (A : Type) :=
| Fulfilled (a : A)
| Rejected (e : Error).
Arguments Fulfilled {A} a.
Arguments Rejected {A} e.

(** ** Programs *)

Inductive Prog (R : Type) : Type :=
| Ret (r : R)
| Throw (e : Error)
| Read (k : World → Prog R)
| Update (f : World → World) (k : Prog R)
| Call (c : SyncCall) (k : Prog R)
| Await (c : AsyncCall) (k : Outcome (Resolved c) → Prog R).
Arguments Ret {R} r.
Arguments Throw {R} e.
Arguments Read {R} k.
Arguments Update {R} f k.
Arguments Call {R} c k.
Arguments Await {R} c k.

Fixpoint bind {A B : Type} (p : Prog A) (f : A → Prog B) : Prog B :=
  match p with
  | Ret a => f a
  | Throw e => Throw e
  | Read k => Read (λ w, bind (k w) f)
  | Update g k => Update g (bind k f)
  | Call c k => Call c (bind k f)
  | Await c k => Await c (λ o, bind (k o) f)
  end.

(** [try { p } catch (err) { handler err }] *)
Fixpoint tryCatch {A : Type} (p : Prog A) (handler : Error → Prog A) : Prog A :=
  match p with
  | Ret a => Ret a
  | Throw e => handler e
  | Read k => Read (λ w, tryCatch (k w) handler)
  | Update g k => Update g (tryCatch k handler)
  | Call c k => Call c (tryCatch k handler)
  | Await c k => Await c (λ o, tryCatch (k o) handler)
  end.

Global Instance Prog_ret : MRet Prog := @Ret.
Global Instance Prog_bind : MBind Prog := λ A B f p, bind p f.

Definition get {A : Type} (f : World → A) : Prog A := Read (λ w, Ret (f w)).
Definition modify (f : World → World) : Prog unit := Update f (Ret tt).
Definition call (c : SyncCall) : Prog unit := Call c (Ret tt).
Definition await (c : AsyncCall) : Prog (Resolved c) :=
  Await c (λ o, match o with Fulfilled a => Ret a | Rejected e => Throw e end).

(** [for (const x of xs) { body x }] *)
Fixpoint forEach {A : Type} (xs : list A) (body : A → Prog unit) : Prog unit :=
  match xs with
  | [] => Ret tt
  | x :: xs => body x ;; forEach xs body
  end.

Fixpoint mapM {A B : Type} (f : A → Prog B) (xs : list A) : Prog (list B) :=
  match xs with
  | [] => Ret []
  | x :: xs => y ← f x; ys ← mapM f xs; Ret (y :: ys)
  end.

(** ** BaseRoom.js *)

(** [DecryptionRequest.dispose()] *)
Definition DecryptionRequest_dispose : Prog unit :=
  modify (λ w, setRequest {| _cancelled := true;
                             preparation := preparation (request w) |} w) ;;
  held ← get (λ w, preparation (request w));
  match held with
  | Some p => call (PreparationDispose p)
  | None => Ret tt
  end.

(** The [closeCallback] that [openTimeline] hands to the timeline. *)
Definition closeCallback : Prog unit :=
  modify (λ w, setRoom (setTimeline None (room w)) w) ;;
  roomEncryption ← get (λ w, _roomEncryption (room w));
  if roomEncryption : bool then call NotifyTimelineClosed else Ret tt.

(** Modelled from the spec: [Timeline.js] is not part of the sources;
    [dispose()] tears down internal references and invokes the close
    callback. *)
Definition Timeline_dispose : Prog unit :=
  call TimelineDispose ;; closeCallback.

(** [new EventEntry(storageEntry, this._fragmentIdComparer)] creates a fresh
    object. *)
Definition new_EventEntry (storageEntry : StorageEntry) : Prog Loc :=
  Read (λ w, let '(h, l) := alloc (newEventEntry storageEntry) (heap w) in
             Update (setHeap h) (Ret l)).

(** Modelled from the spec: [entry.clone()] makes a copy of the entry, a new
    object with the same content. *)
Definition EventEntry_clone (l : Loc) : Prog Loc :=
  Read (λ w, match heap w !! l with
             | Some e => let '(h, l') := alloc e (heap w) in
                         Update (setHeap h) (Ret l')
             | None => Throw (TypeError "clone of undefined")
             end).

(** [_eventIdsToEntries]: the lookups all go to the one transaction [txn];
    they are taken to settle in the order they were issued, which is the
    order of [eventIds]. *)
Fixpoint _eventIdsToEntries (eventIds : list string) (txn : TxnId) : Prog (list Loc) :=
  match eventIds with
  | [] => Ret []
  | eventId :: eventIds =>
      roomId ← get (λ w, _roomId (room w));
      storageEntry ← await (GetByEventId txn roomId eventId);
      match storageEntry with
      | Some storageEntry =>
          entry ← new_EventEntry storageEntry;
          retryEntries ← _eventIdsToEntries eventIds txn;
          Ret (entry :: retryEntries)
      | None => _eventIdsToEntries eventIds txn
      end
  end.

Definition idAt (h : Heap) (l : Loc) : option string := entryId <$> h !! l.

(** [otherRetryEntries.reduce((ids, e) => {ids.add(e.id); return ids;}, new Set())] *)
Definition existingIdsOf (h : Heap) (otherRetryEntries : list Loc) : gset string :=
  foldl (λ ids e, match idAt h e with Some i => ids ∪ {[ i ]} | None => ids end)
        ∅ otherRetryEntries.

(** [existingIds.has(e.id)] *)
Definition hasId (existingIds : gset string) (h : Heap) (e : Loc) : bool :=
  match idAt h e with
  | Some i => bool_decide (i ∈ existingIds)
  | None => true
  end.

Definition additionalTimelineRetryEntries
    (h : Heap) (tl : Timeline) (otherRetryEntries : list Loc) (roomKeys : list RoomKey)
    : list Loc :=
  let retryTimelineEntries :=
    filterUndecryptedEventEntriesForKeys h (remoteEntries tl) roomKeys in
  let existingIds := existingIdsOf h otherRetryEntries in
  filter (λ e, hasId existingIds h e = false) retryTimelineEntries.

(** [_getAdditionalTimelineRetryEntries] *)
Definition _getAdditionalTimelineRetryEntries
    (otherRetryEntries : list Loc) (roomKeys : list RoomKey) : Prog (list Loc) :=
  Read (λ w, match _timeline (room w) with
             | Some tl =>
                 Ret (additionalTimelineRetryEntries (heap w) tl otherRetryEntries roomKeys)
             | None => Throw (TypeError "this._timeline is null")
             end).

Definition encryptedEvents (h : Heap) (batch : list Loc) : list MatrixEvent :=
  omap (λ l, match h !! l with
             | Some entry =>
                 if String.eqb (eventType entry) EVENT_ENCRYPTED_TYPE
                 then Some (event (_eventEntry entry)) else None
             | None => None
             end) batch.

(** The write step of [_decryptEntries], from [const stores = ...] to the
    end of [decryptFn]. *)
Definition writeDecryptionChanges (changes : DecryptionChanges) (batch : list Loc)
    : Prog unit :=
  isTimelineOpen ← get (λ w, _isTimelineOpen (room w));
  let stores := [groupSessionDecryptions]
                ++ (if isTimelineOpen : bool then [deviceIdentities] else []) in
  writeTxn ← await (ReadWriteTxn stores);
  decryption ←
    tryCatch
      (decryption ← await (ChangesWrite changes writeTxn);
       (if isTimelineOpen : bool
        then await (VerifySenders decryption writeTxn)
        else Ret tt) ;;
       Ret decryption)
      (λ err, call (TxnAbort writeTxn) ;; Throw err);
  await (TxnComplete writeTxn) ;;
  call (ApplyToEntries decryption batch) ;;
  observedEvents ← get (λ w, _observedEvents (room w));
  if observedEvents : bool then call (UpdateEvents batch) else Ret tt.

(** [_decryptEntries(source, entries, inboundSessionTxn, log)]: constructs the
    [DecryptionRequest], whose constructor starts [decryptFn] at once; the
    steps up to [if (r.cancelled) return;] after [decrypt()], then the write
    step. *)
Definition _decryptEntries
    (source : DecryptionSource) (batch : list Loc) (inboundSessionTxn : option TxnId)
    : Prog unit :=
  modify (setRequest {| _cancelled := false; preparation := None |}) ;;
  call (NewDecryptionRequest source batch) ;;
  inboundSessionTxn ←
    match inboundSessionTxn with
    | None => await (ReadTxn [inboundGroupSessions])
    | Some txn => Ret txn
    end;
  cancelled ← get (λ w, _cancelled (request w));
  if cancelled : bool then Ret tt else
  evs ← get (λ w, encryptedEvents (heap w) batch);
  p ← await (PrepareDecryptAll evs source inboundSessionTxn);
  modify (λ w, setRequest {| _cancelled := _cancelled (request w);
                             preparation := Some p |} w) ;;
  cancelled ← get (λ w, _cancelled (request w));
  if cancelled : bool then Ret tt else
  held ← get (λ w, preparation (request w));
  changes ← match held with
            | Some p => await (PreparationDecrypt p)
            | None => Throw (TypeError "r.preparation is null")
            end;
  modify (λ w, setRequest {| _cancelled := _cancelled (request w);
                             preparation := None |} w) ;;
  cancelled ← get (λ w, _cancelled (request w));
  if cancelled : bool then Ret tt else
  writeDecryptionChanges changes batch.

(** [notifyRoomKey(roomKey, eventIds, log)] *)
Definition notifyRoomKey (roomKey : RoomKey) (eventIds : list string) : Prog unit :=
  roomEncryption ← get (λ w, _roomEncryption (room w));
  if negb roomEncryption then Ret tt else
  txn ← await (ReadTxn [timelineEvents; inboundGroupSessions]);
  retryEntries ← _eventIdsToEntries eventIds txn;
  tl ← get (λ w, _isTimelineOpen (room w));
  retryEntries ←
    (if tl : bool
     then retryTimelineEntries ← _getAdditionalTimelineRetryEntries retryEntries [roomKey];
          Ret (retryEntries ++ retryTimelineEntries)
     else Ret retryEntries);
  if bool_decide (length retryEntries ≠ 0) then
    _decryptEntries Retry retryEntries (Some txn) ;;
    tl ← get (λ w, _isTimelineOpen (room w));
    (if tl : bool then call (TimelineReplaceEntries retryEntries) else Ret tt) ;;
    call (SummaryApplyTimelineEntries retryEntries) ;;
    changed ← await (SummaryWriteAndApplyData retryEntries);
    if changed : bool then call EmitUpdate else Ret tt
  else Ret tt.

(** [newKeys.map(async key => ...)] of [_getSyncRetryDecryptEntries] *)
Fixpoint entriesPerKey (newKeys : list RoomKey) (txn : TxnId)
    : Prog (list (option (list Loc))) :=
  match newKeys with
  | [] => Ret []
  | key :: newKeys =>
      retryEventIds ← await (GetEventIdsForMissingKey key txn);
      found ← match retryEventIds with
              | Some retryEventIds =>
                  retryEntries ← _eventIdsToEntries retryEventIds txn;
                  Ret (Some retryEntries)
              | None => Ret None
              end;
      others ← entriesPerKey newKeys txn;
      Ret (found :: others)
  end.

Definition concatEntries (perKey : list (option (list Loc))) : list Loc :=
  foldl (λ allEntries found,
           match found with
           | Some found => allEntries ++ found
           | None => allEntries
           end) [] perKey.

(** [_getSyncRetryDecryptEntries(newKeys, roomEncryption, txn)] *)
Definition _getSyncRetryDecryptEntries (newKeys : list RoomKey) (txn : TxnId)
    : Prog (list Loc) :=
  perKey ← entriesPerKey newKeys txn;
  let retryEntries := concatEntries perKey in
  tl ← get (λ w, _isTimelineOpen (room w));
  if tl : bool
  then retryTimelineEntries ← _getAdditionalTimelineRetryEntries retryEntries newKeys;
       retryTimelineEntriesCopies ← mapM EventEntry_clone retryTimelineEntries;
       Ret (retryEntries ++ retryTimelineEntriesCopies)
  else Ret retryEntries.

(** [fillGap(fragmentEntry, amount, log)] *)
Definition fillGap (fragmentEntry : FragmentEntry) (amount : nat) : Prog unit :=
  roomId ← get (λ w, _roomId (room w));
  call (LogSet "id" (JsString roomId)) ;;
  call (LogSet "fragment" (JsNumber (Z.of_nat (fe_fragmentId fragmentEntry)))) ;;
  call (LogSet "dir" (JsString (asApiString (direction fragmentEntry)))) ;;
  if edgeReached fragmentEntry then call (LogSet "edgeReached" (JsBoolean true)) else
  response ← await (HsApiMessages roomId (token fragmentEntry)
                      (asApiString (direction fragmentEntry)) amount);
  txn ← await (ReadWriteTxn [pendingEvents; timelineEvents; timelineFragments]);
  written ←
    tryCatch
      (extraGapFillChanges ← await (WriteGapFill (chunk response) txn);
       gapResult ← await (WriteFragmentFill fragmentEntry response txn);
       Ret (extraGapFillChanges, gapResult))
      (λ err, call (TxnAbort txn) ;; Throw err);
  let '(extraGapFillChanges, gapResult) := written in
  await (TxnComplete txn) ;;
  roomEncryption ← get (λ w, _roomEncryption (room w));
  (if roomEncryption : bool
   then _decryptEntries TimelineSource (entries gapResult) None
   else Ret tt) ;;
  forEach (fragments gapResult) (λ fragment, call (ComparerAdd fragment)) ;;
  match extraGapFillChanges with
  | Some changes => call (ApplyGapFill changes)
  | None => Ret tt
  end ;;
  tl ← get (λ w, _isTimelineOpen (room w));
  if tl : bool
  then call (TimelineReplaceEntries (updatedEntries gapResult)) ;;
       call (TimelineAddOrReplaceEntries (entries gapResult))
  else Ret tt.

(** [openTimeline(log)] *)
Definition openTimeline : Prog (option Timeline) :=
  roomId ← get (λ w, _roomId (room w));
  call (LogSet "id" (JsString roomId)) ;;
  tl ← get (λ w, _isTimelineOpen (room w));
  if tl : bool then Throw (JsError "not dealing with load race here for now") else
  modify (λ w, setRoom (setTimeline (Some {| remoteEntries := [] |}) (room w)) w) ;;
  tryCatch
    (roomEncryption ← get (λ w, _roomEncryption (room w));
     (if roomEncryption : bool
      then call (TimelineEnableEncryption TimelineSource)
      else Ret tt) ;;
     await TimelineLoad)
    (λ err,
       tl ← get (λ w, _isTimelineOpen (room w));
       (if tl : bool
        then Timeline_dispose
        else Throw (TypeError "this._timeline is null")) ;;
       Throw err) ;;
  get (λ w, _timeline (room w)).

(** ** Running a program *)

(** What other tasks may do while a program is suspended. *)
Inductive Action :=
| RequestDispose
| TimelineClose
| TimelineOpen (loaded : list EventEntry)
| ObserveEvents (b : bool).

Definition act (a : Action) : Prog unit :=
  match a with
  | RequestDispose => DecryptionRequest_dispose
  | TimelineClose =>
      tl ← get (λ w, _isTimelineOpen (room w));
      if tl : bool then Timeline_dispose else Ret tt
  | TimelineOpen loaded =>
      tl ← get (λ w, _isTimelineOpen (room w));
      if tl : bool then Ret tt else
      modify (λ w, let '(h, ls) := allocAll loaded (heap w) in
                   setRoom (setTimeline (Some {| remoteEntries := ls |}) (room w))
                           (setHeap h w))
  | ObserveEvents b => modify (λ w, setRoom (setObservedEvents b (room w)) w)
  end.

(** What is seen to happen: a synchronous call, a call whose promise is
    awaited at suspension point [n], or another task that gets to run. *)
Inductive Obs :=
| Called (c : SyncCall)
| Awaited (n : nat) (c : AsyncCall)
| Interfered (a : Action).

(** A trace lists what happened, each step with the world it happened in. *)
Definition Trace := list (World * Obs).

Definition perform (c : SyncCall) (w : World) : World :=
  match c with
  | TxnAbort txn => setStorage (txnAbort txn (storage w)) w
  | ApplyToEntries d batch => setHeap (applyToEntries d batch (heap w)) w
  | ComparerAdd f => setRoom (addFragment f (room w)) w
  | _ => w
  end.

(** Runs a program up to its end or its first [await]. *)
Fixpoint runSync {R : Type} (p : Prog R) (w : World) : Trace * World :=
  match p with
  | Ret _ | Throw _ | Await _ _ => ([], w)
  | Read k => runSync (k w) w
  | Update f k => runSync k (f w)
  | Call c k =>
      let '(t, w') := runSync k (perform c w) in ((w, Called c) :: t, w')
  end.

Fixpoint interfereAll (acts : list Action) (w : World) : Trace * World :=
  match acts with
  | [] => ([], w)
  | a :: acts =>
      let '(t1, w1) := runSync (act a) w in
      let '(t2, w2) := interfereAll acts w1 in
      ((w, Interfered a) :: t1 ++ t2, w2)
  end.

(** What a collaborator answers. *)
Record Reply := {
  r_preparation : Preparation;
  r_changes : DecryptionChanges;
  r_decryption : Decryption;
  r_response : MessagesResponse;
  r_extraGapFillChanges : option GapFillChanges;
  r_newEntries : list EventEntry;
  r_updatedEntries : list EventEntry;
  r_fragments : list Fragment;
  r_eventIds : option (list string);
  r_changed : bool
}.

(** The environment of a run, by suspension point: what other tasks do
    meanwhile, whether the awaited promise rejects, which records the
    awaited step puts into the transaction it was handed, and what the
    collaborator answers. *)
Record Env := {
  interference : nat → list Action;
  rejection : nat → option Error;
  txnWrites : nat → list StoreRecord;
  reply : nat → Reply
}.

Definition externalWrites (c : AsyncCall) (records : list StoreRecord) (w : World) : World :=
  match c with
  | ChangesWrite _ txn
  | VerifySenders _ txn
  | WriteGapFill _ txn
  | WriteFragmentFill _ _ txn => setStorage (txnPut txn records (storage w)) w
  | _ => w
  end.

Definition rejectEffect (c : AsyncCall) (w : World) : World :=
  match c with
  | TxnComplete txn => setStorage (txnAbort txn (storage w)) w
  | _ => w
  end.

Definition fulfil (rep : Reply) (c : AsyncCall) (w : World) : World * Outcome (Resolved c) :=
  match c return World * Outcome (Resolved c) with
  | ReadTxn stores =>
      let '(st, t) := openTxn ReadOnly stores (storage w) in
      (setStorage st w, Fulfilled t)
  | ReadWriteTxn stores =>
      let '(st, t) := openTxn ReadWrite stores (storage w) in
      (setStorage st w, Fulfilled t)
  | GetByEventId _ roomId eventId =>
      (w, Fulfilled (getByEventId (committed (storage w)) roomId eventId))
  | GetEventIdsForMissingKey _ _ => (w, Fulfilled (r_eventIds rep))
  | PrepareDecryptAll _ _ _ => (w, Fulfilled (r_preparation rep))
  | PreparationDecrypt _ => (w, Fulfilled (r_changes rep))
  | ChangesWrite _ _ => (w, Fulfilled (r_decryption rep))
  | VerifySenders _ _ => (w, Fulfilled tt)
  | TxnComplete txn =>
      if txnIsOpen txn (storage w)
      then (setStorage (txnComplete txn (storage w)) w, Fulfilled tt)
      else (w, Rejected (JsError "the transaction is not active"))
  | HsApiMessages _ _ _ _ => (w, Fulfilled (r_response rep))
  | WriteGapFill _ _ => (w, Fulfilled (r_extraGapFillChanges rep))
  | WriteFragmentFill _ _ _ =>
      let '(h1, created) := allocAll (r_newEntries rep) (heap w) in
      let '(h2, updated) := allocAll (r_updatedEntries rep) h1 in
      (setHeap h2 w,
       Fulfilled {| entries := created; updatedEntries := updated;
                    fragments := r_fragments rep |})
  | TimelineLoad =>
      match _timeline (room w) with
      | Some tl =>
          let '(h, ls) := allocAll (r_newEntries rep) (heap w) in
          (setRoom (setTimeline (Some {| remoteEntries := remoteEntries tl ++ ls |})
                                (room w))
                   (setHeap h w), Fulfilled tt)
      | None => (w, Fulfilled tt)
      end
  | SummaryWriteAndApplyData _ => (w, Fulfilled (r_changed rep))
  end.

Definition settle (env : Env) (n : nat) (c : AsyncCall) (w : World)
    : World * Outcome (Resolved c) :=
  let w := externalWrites c (txnWrites env n) w in
  match rejection env n with
  | Some e => (rejectEffect c w, Rejected e)
  | None => fulfil (reply env n) c w
  end.

Record Result (R : Type) := {
  trace : Trace;
  ticks : nat;
  world : World;
  outcome : Outcome R
}.
Arguments trace {R} r.
Arguments ticks {R} r.
Arguments world {R} r.
Arguments outcome {R} r.

Definition after {R : Type} (t : Trace) (r : Result R) : Result R :=
  {| trace := t ++ trace r; ticks := ticks r; world := world r; outcome := outcome r |}.

(** [run env n p w] runs [p] from the world [w]; [n] counts the suspension
    points passed so far. *)
Fixpoint run {R : Type} (env : Env) (n : nat) (p : Prog R) (w : World) : Result R :=
  match p with
  | Ret r => {| trace := []; ticks := n; world := w; outcome := Fulfilled r |}
  | Throw e => {| trace := []; ticks := n; world := w; outcome := Rejected e |}
  | Read k => run env n (k w) w
  | Update f k => run env n k (f w)
  | Call c k => after [(w, Called c)] (run env n k (perform c w))
  | Await c k =>
      let '(ti, wi) := interfereAll (interference env n) w in
      let '(ws, o) := settle env n c wi in
      after ((w, Awaited n c) :: ti) (run env (S n) (k o) ws)
  end.

(** What a trace shows. *)
Definition observed (t : Trace) : list Obs := t.*2.

Definition awaitedCalls (os : list Obs) : list AsyncCall :=
  omap (λ o, match o with Awaited _ c => Some c | _ => None end) os.

Definition syncCalls (os : list Obs) : list SyncCall :=
  omap (λ o, match o with Called c => Some c | _ => None end) os.

(** The promises a run awaited, and the synchronous calls made during it
    (by the program or by the other tasks). *)
Definition issued (t : Trace) : list AsyncCall := awaitedCalls (observed t).
Definition called (t : Trace) : list SyncCall := syncCalls (observed t).

Definition pending {R : Type} : Prog R → World → option AsyncCall :=
  fix go p w :=
    match p with
    | Ret _ | Throw _ => None
    | Read k => go (k w) w
    | Update f k => go k (f w)
    | Call c k => go k (perform c w)
    | Await c _ => Some c
    end.

(** The arguments the callback of [iterateResponseStateEvents] is invoked
    with, in order. *)
Definition invocations (roomResponse : RoomResponse) : list MatrixEvent :=
  iterateResponseStateEvents roomResponse (λ event seen, seen ++ [event]) [].

(** ** Sample data *)

Module Sample.

Definition member (key : string) : MatrixEvent :=
  {| event_id := key; type := "m.room.member"; state_key := JsString key;
     session := None |}.

Definition message (i : string) : MatrixEvent :=
  {| event_id := i; type := "m.room.message"; state_key := JsUndefined;
     session := None |}.

Definition megolm : SessionRef := {| senderKey := "curve"; sessionId := "s1" |}.

Definition encrypted (i : string) : MatrixEvent :=
  {| event_id := i; type := EVENT_ENCRYPTED_TYPE; state_key := JsUndefined;
     session := Some megolm |}.

Definition key : RoomKey := {| key_roomId := "!room"; key_session := megolm |}.

Definition stored (ev : MatrixEvent) : StorageEntry :=
  {| entry_roomId := "!room"; event := ev; fragmentId := 0; eventIndex := 0 |}.

Definition record (ev : MatrixEvent) : StoreRecord :=
  {| rec_store := timelineEvents; rec_value := TimelineEventValue (stored ev) |}.

Definition emptyRoom : BaseRoom :=
  {| _roomId := "!room"; _timeline := None; _roomEncryption := true;
     _observedEvents := false; _fragmentIdComparer := [] |}.

Definition emptyWorld : World :=
  {| room := emptyRoom;
     request := {| _cancelled := false; preparation := None |};
     storage := {| committed := []; txns := [] |};
     heap := [] |}.

Definition quietReply : Reply :=
  {| r_preparation := 7; r_changes := 9;
     r_decryption := {| results := ∅ |};
     r_response := {| chunk := []; response_end := None |};
     r_extraGapFillChanges := None;
     r_newEntries := []; r_updatedEntries := []; r_fragments := [];
     r_eventIds := None; r_changed := false |}.

(** Nothing interferes, nothing fails. *)
Definition quiet : Env :=
  {| interference := λ _, []; rejection := λ _, None;
     txnWrites := λ _, []; reply := λ _, quietReply |}.

(** The request is disposed while it is suspended for the [k]-th time. *)
Definition disposedAt (k : nat) : Env :=
  {| interference := λ n, if bool_decide (n = k) then [RequestDispose] else [];
     rejection := λ _, None;
     txnWrites := λ _, []; reply := λ _, quietReply |}.

(** A world with one encrypted entry, in storage and as an entry object,
    and a read transaction that is open. *)
Definition oneEntryWorld : World :=
  {| room := emptyRoom;
     request := {| _cancelled := false; preparation := None |};
     storage := {| committed := [record (encrypted "$e1")];
                   txns := [ {| txn_mode := ReadOnly;
                                txn_stores := [inboundGroupSessions];
                                txn_pending := []; txn_status := TxnOpen |} ] |};
     heap := [newEventEntry (stored (encrypted "$e1"))] |}.

(** The [k]-th awaited promise rejects. *)
Definition failingAt (k : nat) : Env :=
  {| interference := λ _, [];
     rejection := λ n, if bool_decide (n = k) then Some (Failure 1) else None;
     txnWrites := λ _, [ {| rec_store := groupSessionDecryptions;
                            rec_value := OpaqueValue 5 |} ];
     reply := λ _, quietReply |}.

Definition openRoom : BaseRoom :=
  {| _roomId := "!room"; _timeline := Some {| remoteEntries := [0] |};
     _roomEncryption := true; _observedEvents := false;
     _fragmentIdComparer := [] |}.

(** [oneEntryWorld] with the live timeline open, showing the entry. *)
Definition openWorld : World := setRoom openRoom oneEntryWorld.

Definition gap (reached : bool) : FragmentEntry :=
  {| fe_fragmentId := 3; direction := Backward; token := "t0";
     edgeReached := reached |}.

End Sample.

(** ** What a trace tells about a decryption request *)

Definition isDispose (o : Obs) : bool :=
  match o with Interfered RequestDispose => true | _ => false end.

Definition isAwaited (o : Obs) : bool :=
  match o with Awaited _ _ => true | _ => false end.

Definition opensWriteTxn (o : Obs) : bool :=
  match o with Awaited _ (ReadWriteTxn _) => true | _ => false end.

(** The request was disposed before [readWriteTxn] was called. *)
Fixpoint disposedBeforeWriteTxn (os : list Obs) : bool :=
  match os with
  | [] => false
  | o :: os =>
      if isDispose o then true
      else if opensWriteTxn o then false
      else disposedBeforeWriteTxn os
  end.

(** What happened after the request was first disposed. *)
Fixpoint afterDispose (os : list Obs) : list Obs :=
  match os with
  | [] => []
  | o :: os => if isDispose o then os else afterDispose os
  end.

(** The calls that open, write, or commit a read-write transaction. *)
Definition writesStorage (c : AsyncCall) : bool :=
  match c with
  | ReadWriteTxn _ | ChangesWrite _ _ | VerifySenders _ _ | TxnComplete _
  | WriteGapFill _ _ | WriteFragmentFill _ _ _ => true
  | _ => false
  end.

Definition appliesResults (c : SyncCall) : bool :=
  match c with ApplyToEntries _ _ | UpdateEvents _ => true | _ => false end.

(** What other tasks are seen to do while a request with held preparation
    [held] is suspended. *)
Definition interferenceStep (held : option Preparation) (st : Storage)
    (step : World * Obs) : Prop :=
  preparation (request step.1) = held
  ∧ storage step.1 = st
  ∧ match step.2 with
    | Awaited _ _ => False
    | Called c =>
        c = TimelineDispose ∨ c = NotifyTimelineClosed
        ∨ ∃ p, held = Some p ∧ c = PreparationDispose p
    | Interfered _ => True
    end.

(** What other tasks leave as it is. *)
Record Undisturbed (w w' : World) : Prop := {
  und_storage : storage w' = storage w;
  und_preparation : preparation (request w') = preparation (request w);
  und_cancelled : _cancelled (request w) = true → _cancelled (request w') = true;
  und_heap : heap w `prefix_of` heap w';
  und_roomId : _roomId (room w') = _roomId (room w);
  und_roomEncryption : _roomEncryption (room w') = _roomEncryption (room w);
  und_comparer : _fragmentIdComparer (room w') = _fragmentIdComparer (room w)
}.

(** The transaction a call writes the results of a decryption into. *)
Definition writesTo (c : AsyncCall) : option TxnId :=
  match c with
  | ChangesWrite _ txn | VerifySenders _ txn => Some txn
  | _ => None
  end.

(** When results are applied to the entries, the transaction that the
    request wrote them into, and that it completed, is committed. *)
Definition appliedAfterCommit (calls : list AsyncCall) (step : World * Obs) : Prop :=
  match step.2 with
  | Called (ApplyToEntries _ _) =>
      ∃ changes txn tx,
        ChangesWrite changes txn ∈ calls
        ∧ TxnComplete txn ∈ calls
        ∧ txns (storage step.1) !! txn = Some tx
        ∧ txn_status tx = TxnCommitted
  | _ => True
  end.

(** When the senders are verified, it is in a read-write transaction over
    [stores] that is still open, the one the changes were written into. *)
Definition verifiedInWriteTxn (stores : list StoreName) (calls : list AsyncCall)
    (step : World * Obs) : Prop :=
  match step.2 with
  | Awaited _ (VerifySenders _ txn) =>
      ∃ changes tx,
        ChangesWrite changes txn ∈ calls
        ∧ txns (storage step.1) !! txn = Some tx
        ∧ txn_mode tx = ReadWrite
        ∧ txn_stores tx = stores
        ∧ txn_status tx = TxnOpen
  | _ => True
  end.

(** [andThen env r f] continues the run [r] with [f], as [bind] does. *)
Definition andThen {A B : Type} (env : Env) (r : Result A) (f : A → Prog B) : Result B :=
  match outcome r with
  | Fulfilled a => after (trace r) (run env (ticks r) (f a) (world r))
  | Rejected e =>
      {| trace := trace r; ticks := ticks r; world := world r; outcome := Rejected e |}
  end.

(** [orElse env r handler] continues the run [r] with [handler] when it
    threw, as [tryCatch] does. *)
Definition orElse {A : Type} (env : Env) (r : Result A) (handler : Error → Prog A)
    : Result A :=
  match outcome r with
  | Fulfilled a => r
  | Rejected e => after (trace r) (run env (ticks r) (handler e) (world r))
  end.

(** Every promise that [p] awaits, in any run, is of a call that satisfies [P]. *)
Definition Issues {R : Type} (P : AsyncCall → Prop) (p : Prog R) : Prop :=
  ∀ env n w, Forall P (issued (trace (run env n p w))).

(** Every synchronous call made while [p] runs, by [p] or by other tasks,
    satisfies [P]. *)
Definition Calls {R : Type} (P : SyncCall → Prop) (p : Prog R) : Prop :=
  ∀ env n w, Forall P (called (trace (run env n p w))).

(** The calls that write a gap fill into a transaction. *)
Definition gapWriteTo (c : AsyncCall) : option TxnId :=
  match c with
  | WriteGapFill _ txn | WriteFragmentFill _ _ txn => Some txn
  | _ => None
  end.

Definition gapStores : list StoreName := [pendingEvents; timelineEvents; timelineFragments].

(** A gap fill is written into the transaction [txn], which is open for
    reading and writing over [gapStores], and nothing of it is committed
    at that time: storage holds [before]. *)
Definition gapWrittenIn (txn : TxnId) (before : list StoreRecord) (step : World * Obs)
    : Prop :=
  match step.2 with
  | Awaited _ c =>
      match gapWriteTo c with
      | Some t =>
          t = txn
          ∧ committed (storage step.1) = before
          ∧ ∃ tx, txns (storage step.1) !! txn = Some tx
                  ∧ txn_mode tx = ReadWrite
                  ∧ txn_stores tx = gapStores
                  ∧ txn_status tx = TxnOpen
      | None => True
      end
  | _ => True
  end.

(** The calls by which a room changes what is in memory after a gap fill. *)
Definition updatesMemory (c : SyncCall) : bool :=
  match c with
  | ComparerAdd _ | ApplyGapFill _ | TimelineReplaceEntries _
  | TimelineAddOrReplaceEntries _ | ApplyToEntries _ _ | UpdateEvents _ => true
  | _ => false
  end.

(** What [prepareDecryptAll] is handed by a request for [batch] from [source]. *)
Definition preparesFrom (source : DecryptionSource) (txn : option TxnId) (c : AsyncCall)
    : Prop :=
  match c with
  | ReadTxn stores => txn = None ∧ stores = [inboundGroupSessions]
  | PrepareDecryptAll evs s t =>
      s = source
      ∧ (∀ supplied, txn = Some supplied → t = supplied)
      ∧ Forall (λ ev, type ev = EVENT_ENCRYPTED_TYPE) evs
  | _ => True
  end.

(** What [notifyRoomKey] may call. *)
Definition retryRequest (c : SyncCall) : Prop :=
  match c with
  | NewDecryptionRequest source batch => source = Retry ∧ batch ≠ []
  | ApplyToEntries _ batch | UpdateEvents batch | TimelineReplaceEntries batch
  | SummaryApplyTimelineEntries batch => batch ≠ []
  | TimelineAddOrReplaceEntries _ | ComparerAdd _ | ApplyGapFill _
  | TimelineEnableEncryption _ | LogSet _ _ => False
  | _ => True
  end.

(** The entries that storage holds for the event ids, in the order asked for. *)
Definition storedEvents (st : Storage) (roomId : string) (eventIds : list string)
    : list StorageEntry :=
  omap (getByEventId (committed st) roomId) eventIds.

(** The entry objects that the live timeline shows. *)
Definition timelineEntries (w : World) : list Loc :=
  match _timeline (room w) with
  | Some tl => remoteEntries tl
  | None => []
  end.

(** The live timeline shows entry objects that exist, each of them once. *)
Definition timelineShowsEntries (w : World) : Prop :=
  NoDup (timelineEntries w) ∧ Forall (λ l, l < length (heap w)) (timelineEntries w).

(** The batch of every decryption request that is started is a retry batch
    without an entry object in it twice. *)
Definition retriesEachOnce (c : SyncCall) : Prop :=
  match c with
  | NewDecryptionRequest source batch => source = Retry ∧ NoDup batch
  | _ => True
  end.

(** What a step keeps of the live timeline: it shows entries that exist, and
    an entry that existed before and is shown afterwards was shown before. *)
Record TimelineKept (w w' : World) : Prop := {
  kept_shows : timelineShowsEntries w → timelineShowsEntries w';
  kept_hidden : ∀ l, l < length (heap w) → l ∈ timelineEntries w' → l ∈ timelineEntries w;
  kept_heap : heap w `prefix_of` heap w'
}.

(** The entries [ls] were made between [w] and [w'], each once, and the
    live timeline does not show them. *)
Definition madeSince (w w' : World) (ls : list Loc) : Prop :=
  NoDup ls
  ∧ Forall (λ l, length (heap w) ≤ l < length (heap w') ∧ l ∉ timelineEntries w') ls.

(** The transactions that storage [st] had are as they were at a step. *)
Definition keepsTxns (st : Storage) (step : World * Obs) : Prop :=
  txns st `prefix_of` txns (storage step.1).

(** What is in memory is updated in a world where the transaction [txn] is
    committed. *)
Definition afterCommitOf (txn : TxnId) (step : World * Obs) : Prop :=
  match step.2 with
  | Called c =>
      updatesMemory c = true →
      (txn_status <$> txns (storage step.1) !! txn) = Some TxnCommitted
  | _ => True
  end.

(** * Properties *)

(** ** common.ts *)

Lemma typeof_string (v : JsValue) :
  String.eqb (typeof v) "string" = match v with JsString _ => true | _ => false end.
Proof. by destruct v. Qed.

Lemma foldl_string_keyed {S : Type} (f : S → MatrixEvent → S) (l : list MatrixEvent) (s : S) :
  foldl (λ s e, if String.eqb (typeof (state_key e)) "string" then f s e else s) s l
  = foldl f s (filter (λ e, hasStringStateKey e = true) l).
Proof.
  revert s. induction l as [|e l IH]; intros s; [done|].
  rewrite filter_cons. cbn [foldl]. rewrite IH, typeof_string.
  unfold hasStringStateKey.
  destruct (state_key e); case_decide; done.
Qed.

Lemma foldl_snoc_log {A : Type} (l acc : list A) :
  foldl (λ seen a, seen ++ [a]) acc l = acc ++ l.
Proof.
  revert acc. induction l as [|a l IH]; intros acc; cbn [foldl].
  - by rewrite app_nil_r.
  - by rewrite IH, <- app_assoc.
Qed.

Lemma iterateResponseStateEvents_fold {S : Type}
    (roomResponse : RoomResponse) (callback : MatrixEvent → S → S) (s : S) :
  iterateResponseStateEvents roomResponse callback s
  = foldl (λ s event, callback event s) s
      (sectionEvents (state roomResponse)
       ++ filter (λ e, hasStringStateKey e = true) (sectionEvents (timeline roomResponse))).
Proof.
  unfold iterateResponseStateEvents, sectionEvents.
  rewrite foldl_app.
  destruct (state roomResponse ≫= events) as [sevs|];
    destruct (timeline roomResponse ≫= events) as [tevs|]; cbn [default foldl];
    try done.
  all: apply (foldl_string_keyed (λ s e, callback e s)).
Qed.

(** C10: the callback of [iterateResponseStateEvents] is invoked on every
    event of the state section in array order and then on exactly the
    timeline events whose [state_key] is a string, in array order; any
    callback sees exactly these invocations, and a response with neither
    section invokes it zero times. *)
Theorem iterateResponseStateEvents_invocations (roomResponse : RoomResponse) :
  invocations roomResponse
  = sectionEvents (state roomResponse)
    ++ filter (λ e, hasStringStateKey e = true) (sectionEvents (timeline roomResponse))
  ∧ (∀ (S : Type) (callback : MatrixEvent → S → S) (s : S),
       iterateResponseStateEvents roomResponse callback s
       = foldl (λ s event, callback event s) s (invocations roomResponse))
  ∧ invocations {| state := None; timeline := None |} = [].
Proof.
  assert (Hinv : ∀ r, invocations r
    = sectionEvents (state r)
      ++ filter (λ e, hasStringStateKey e = true) (sectionEvents (timeline r))).
  { intros r. unfold invocations. rewrite iterateResponseStateEvents_fold.
    by rewrite foldl_snoc_log. }
  split; [apply Hinv|]. split; [|done].
  intros S callback s. rewrite Hinv. apply iterateResponseStateEvents_fold.
Qed.

Example iterateResponseStateEvents_both_sections :
  event_id <$> invocations
    {| state := Some {| events := Some [Sample.member "1"; Sample.member "2"] |};
       timeline := Some {| events := Some [Sample.message "a"; Sample.member "3";
                                           Sample.message "b"; Sample.member "2"] |} |}
  = ["1"; "2"; "3"; "2"]%string.
Proof. reflexivity. Qed.

(** ** Other tasks *)

Global Instance Undisturbed_refl : Reflexive Undisturbed.
Proof. intros w. by split. Qed.

Global Instance Undisturbed_trans : Transitive Undisturbed.
Proof.
  intros w1 w2 w3 [] []. split; try congruence; [tauto|by etrans].
Qed.

Lemma runSync_only_calls {R : Type} (p : Prog R) (w : World) :
  Forall (λ step, ∃ c, step.2 = Called c) (runSync p w).1.
Proof.
  revert w. induction p as [| |k IH|f k IH|c k IH|c k IH]; intros w; cbn; try done.
  specialize (IH (perform c w)). destruct (runSync k (perform c w)).
  constructor; cbn; eauto.
Qed.

Lemma act_frame (a : Action) (w : World) : Undisturbed w (runSync (act a) w).2.
Proof.
  destruct a; cbn.
  - destruct (preparation (request w)) eqn:Hp; by split.
  - destruct (_isTimelineOpen (room w)); cbn; [|done].
    destruct (_roomEncryption (room w)) eqn:He; by split.
  - destruct (_isTimelineOpen (room w)); cbn; [done|].
    split; try done. cbn. by apply prefix_app_r.
  - by split.
Qed.

Lemma act_steps (a : Action) (w : World) :
  Forall (interferenceStep (preparation (request w)) (storage w)) (runSync (act a) w).1.
Proof.
  destruct a; cbn.
  - destruct (preparation (request w)) as [p|] eqn:Hp; cbn; [|done].
    constructor; [|done]. split_and!; cbn; eauto.
  - destruct (_isTimelineOpen (room w)); cbn; [|done].
    destruct (_roomEncryption (room w)); cbn.
    + constructor; [|constructor; [|done]]; split_and!; cbn; eauto.
    + constructor; [|done]; split_and!; cbn; eauto.
  - destruct (_isTimelineOpen (room w)); cbn; done.
  - done.
Qed.

Lemma interfereAll_frame (acts : list Action) (w : World) :
  Undisturbed w (interfereAll acts w).2.
Proof.
  revert w. induction acts as [|a acts IH]; intros w; cbn; [done|].
  pose proof (act_frame a w) as Ha.
  destruct (runSync (act a) w) as [t1 w1]. specialize (IH w1).
  destruct (interfereAll acts w1) as [t2 w2]. cbn in *. by etrans.
Qed.

Lemma interfereAll_steps (acts : list Action) (w : World) :
  Forall (interferenceStep (preparation (request w)) (storage w)) (interfereAll acts w).1.
Proof.
  revert w. induction acts as [|a acts IH]; intros w; cbn; [done|].
  pose proof (act_frame a w) as Ha. pose proof (act_steps a w) as Hs.
  destruct (runSync (act a) w) as [t1 w1]. specialize (IH w1).
  destruct (interfereAll acts w1) as [t2 w2]. cbn in *.
  destruct Ha. rewrite und_preparation0, und_storage0 in IH.
  constructor; [done|]. by apply Forall_app.
Qed.

(** Disposing sets the flag, and disposes the preparation that is held. *)
Lemma interfereAll_dispose (acts : list Action) (w : World) (w0 : World) :
  (w0, Interfered RequestDispose) ∈ (interfereAll acts w).1 →
  _cancelled (request (interfereAll acts w).2) = true
  ∧ ∀ p, preparation (request w) = Some p →
         ∃ w1, (w1, Called (PreparationDispose p)) ∈ (interfereAll acts w).1.
Proof.
  revert w. induction acts as [|a acts IH]; intros w; cbn; [by intros ?%elem_of_nil|].
  pose proof (act_frame a w) as Ha. pose proof (runSync_only_calls (act a) w) as Hs.
  destruct (runSync (act a) w) as [t1 w1] eqn:Hrun. specialize (IH w1).
  pose proof (interfereAll_frame acts w1) as Hf.
  destruct (interfereAll acts w1) as [t2 w2]. cbn in *.
  intros [Hhd|[Hin|Hin]%elem_of_app]%elem_of_cons.
  - simplify_eq. cbn in Hrun. split.
    + apply Hf. destruct (preparation (request w)); cbn in Hrun; by simplify_eq.
    + intros p Hp. rewrite Hp in Hrun. cbn in Hrun. simplify_eq.
      eexists. apply elem_of_cons. right. apply elem_of_cons. by left.
  - rewrite Forall_forall in Hs. by apply Hs in Hin as [c ?].
  - destruct (IH Hin) as [Hc Hd]. split; [done|].
    intros p Hp. destruct Ha. rewrite <- und_preparation0 in Hp.
    destruct (Hd p Hp) as [w3 Hw3]. exists w3.
    apply elem_of_cons. right. apply elem_of_app. by right.
Qed.

(** If the flag is still down, nobody has disposed the request. *)
Lemma interfereAll_not_disposed (acts : list Action) (w : World) :
  _cancelled (request (interfereAll acts w).2) = false →
  Forall (λ o, isDispose o = false ∧ isAwaited o = false)
         (observed (interfereAll acts w).1).
Proof.
  intros Hc. apply Forall_forall. intros o Ho.
  apply list_elem_of_fmap in Ho as [[w0 o'] [-> Hin]]. cbn.
  split.
  - destruct o' as [| |[]]; try done. apply interfereAll_dispose in Hin as [? _].
    congruence.
  - pose proof (interfereAll_steps acts w) as Hs. rewrite Forall_forall in Hs.
    apply Hs in Hin as (_ & _ & Hk). cbn in Hk. by destruct o'.
Qed.

Lemma issued_app (t1 t2 : Trace) : issued (t1 ++ t2) = issued t1 ++ issued t2.
Proof. unfold issued, awaitedCalls, observed. by rewrite fmap_app, omap_app. Qed.

Lemma called_app (t1 t2 : Trace) : called (t1 ++ t2) = called t1 ++ called t2.
Proof. unfold called, syncCalls, observed. by rewrite fmap_app, omap_app. Qed.

Lemma observed_app (t1 t2 : Trace) : observed (t1 ++ t2) = observed t1 ++ observed t2.
Proof. apply fmap_app. Qed.

(** What a program sees of the other tasks that ran while it was suspended. *)
Record Interference (w : World) (ti : Trace) (wi : World) : Prop := {
  int_frame : Undisturbed w wi;
  int_issued : issued ti = [];
  int_called :
    Forall (λ c, c = TimelineDispose ∨ c = NotifyTimelineClosed
                 ∨ ∃ p, preparation (request w) = Some p ∧ c = PreparationDispose p)
           (called ti);
  int_steps : Forall (interferenceStep (preparation (request w)) (storage w)) ti;
  int_quiet :
    _cancelled (request wi) = false →
    Forall (λ o, isDispose o = false ∧ isAwaited o = false) (observed ti);
  int_dispose :
    ∀ w0, (w0, Interfered RequestDispose) ∈ ti →
          _cancelled (request wi) = true
          ∧ ∀ p, preparation (request w) = Some p → PreparationDispose p ∈ called ti
}.

Lemma interfereAll_spec (acts : list Action) (w : World) :
  Interference w (interfereAll acts w).1 (interfereAll acts w).2.
Proof.
  pose proof (interfereAll_steps acts w) as Hs.
  split.
  - apply interfereAll_frame.
  - induction Hs as [|[w0 o] t (_ & _ & Ho) _ IH]; [done|].
    cbn in *. by destruct o.
  - induction Hs as [|[w0 o] t (_ & _ & Ho) _ IH]; [done|].
    cbn in *. destruct o; try done. unfold called, syncCalls in *. cbn. by constructor.
  - done.
  - apply interfereAll_not_disposed.
  - intros w0 Hin. destruct (interfereAll_dispose _ _ _ Hin) as [Hc Hd].
    split; [done|]. intros p Hp. destruct (Hd p Hp) as [w1 Hw1].
    unfold called, syncCalls, observed. apply list_elem_of_omap.
    exists (Called (PreparationDispose p)). split; [|done].
    apply list_elem_of_fmap. by exists (w1, Called (PreparationDispose p)).
Qed.

(** ** Symbolic execution *)

Lemma observed_cons (w : World) (o : Obs) (t : Trace) :
  observed ((w, o) :: t) = o :: observed t.
Proof. done. Qed.

Lemma issued_awaited (w : World) (n : nat) (c : AsyncCall) (t : Trace) :
  issued ((w, Awaited n c) :: t) = c :: issued t.
Proof. done. Qed.

Lemma issued_called (w : World) (c : SyncCall) (t : Trace) :
  issued ((w, Called c) :: t) = issued t.
Proof. done. Qed.

Lemma called_awaited (w : World) (n : nat) (c : AsyncCall) (t : Trace) :
  called ((w, Awaited n c) :: t) = called t.
Proof. done. Qed.

Lemma called_called (w : World) (c : SyncCall) (t : Trace) :
  called ((w, Called c) :: t) = c :: called t.
Proof. done. Qed.

Lemma trace_after {R : Type} (t : Trace) (r : Result R) : trace (after t r) = t ++ trace r.
Proof. done. Qed.

Lemma world_after {R : Type} (t : Trace) (r : Result R) : world (after t r) = world r.
Proof. done. Qed.

Lemma outcome_after {R : Type} (t : Trace) (r : Result R) : outcome (after t r) = outcome r.
Proof. done. Qed.

Lemma ticks_after {R : Type} (t : Trace) (r : Result R) : ticks (after t r) = ticks r.
Proof. done. Qed.

Lemma observed_nil : observed [] = [].
Proof. done. Qed.

Lemma issued_nil : issued [] = [].
Proof. done. Qed.

Lemma called_nil : called [] = [].
Proof. done. Qed.

Global Arguments awaitedCalls : simpl never.
Global Arguments syncCalls : simpl never.
Global Arguments issued : simpl never.
Global Arguments called : simpl never.
Global Arguments observed : simpl never.

Create Rewrite HintDb shape.
Hint Rewrite observed_nil issued_nil called_nil @app_nil_l : shape.
Hint Rewrite @trace_after @world_after @outcome_after @ticks_after
  observed_cons observed_app issued_awaited issued_called issued_app
  called_awaited called_called called_app @app_nil_r : shape.

Ltac interfere_in H :=
  match type of H with
  | context [interfereAll ?a ?w] =>
      let ti := fresh "ti" in
      let wi := fresh "wi" in
      let Hi := fresh "Hi" in
      pose proof (interfereAll_spec a w) as Hi;
      destruct (interfereAll a w) as [ti wi]; cbn [fst snd] in Hi
  end.

Ltac settle_in H :=
  unfold settle in H;
  match type of H with
  | context [rejection ?env ?n] =>
      let e := fresh "e" in
      let Hrej := fresh "Hrej" in
      destruct (rejection env n) as [e|] eqn:Hrej
  end; cbn in H.

Ltac branch_in H :=
  match type of H with
  | context [if ?b then _ else _] =>
      let Hb := fresh "Hb" in destruct b eqn:Hb
  end; cbn in H.

Ltac explore_in H := repeat first [interfere_in H | settle_in H | branch_in H].

(** Splits what is known of the other tasks, and states it of the world
    the program started from. *)
Ltac frames :=
  repeat match goal with
         | H : Interference _ _ _ |- _ =>
             let Hf := fresh "Hf" in
             destruct H as [Hf ? ? ? ? ?]; destruct Hf; cbn in *
         end;
  repeat match goal with
         | H : storage ?wi = _ |- _ => is_var wi; rewrite H in *; clear H
         end;
  repeat match goal with
         | H : issued ?ti = [] |- _ => is_var ti; progress (rewrite !H in * )
         end;
  repeat match goal with
         | H : ?a = ?b → _, H' : ?a = ?b |- _ => specialize (H H')
         end.

Lemma disposedBeforeWriteTxn_quiet (os rest : list Obs) :
  Forall (λ o, isDispose o = false ∧ isAwaited o = false) os →
  disposedBeforeWriteTxn (os ++ rest) = disposedBeforeWriteTxn rest.
Proof.
  induction 1 as [|o os [Hd Ha] _ IH]; [done|]. cbn. rewrite Hd.
  destruct o as [|? []|]; try done.
Qed.

Lemma afterDispose_quiet (os rest : list Obs) :
  Forall (λ o, isDispose o = false ∧ isAwaited o = false) os →
  afterDispose (os ++ rest) = afterDispose rest.
Proof.
  induction 1 as [|o os [Hd Ha] _ IH]; [done|]. cbn. by rewrite Hd.
Qed.

Lemma byOthers_appliesResults (held : option Preparation) (cs : list SyncCall) :
  Forall (λ c, c = TimelineDispose ∨ c = NotifyTimelineClosed
               ∨ ∃ p, held = Some p ∧ c = PreparationDispose p) cs →
  Forall (λ c, appliesResults c = false) cs.
Proof.
  intros H. eapply Forall_impl; [done|]. by intros c [->|[->|(p & _ & ->)]].
Qed.

Ltac chain_prefix := repeat (etrans; [eassumption|]); done.

Ltac undisposed Hd :=
  exfalso;
  repeat first [ rewrite disposedBeforeWriteTxn_quiet in Hd by done
               | progress cbn in Hd ];
  discriminate.

Lemma afterDispose_silent (os : list Obs) :
  awaitedCalls os = [] → awaitedCalls (afterDispose os) = [].
Proof.
  induction os as [|o os IH]; [done|]. cbn.
  destruct o as [| |[]]; cbn; try done; auto.
Qed.

Ltac silent_after_dispose :=
  repeat first [ rewrite afterDispose_quiet by done
               | progress cbn [afterDispose isDispose] ];
  apply afterDispose_silent; try done.

(** C1: a decryption request that is disposed before [readWriteTxn] is
    called opens no read-write transaction and writes nothing, commits
    nothing to storage, applies no results, and leaves every entry object as
    it was; once it is disposed it starts no further step, so the flag is
    seen at the suspension point it was set at, which is the read
    transaction, the preparation of the plan, or its execution. *)
Theorem decryptEntries_cancelled_before_write
    (env : Env) (n : nat) (w : World) (source : DecryptionSource)
    (batch : list Loc) (inboundSessionTxn : option TxnId) :
  let r := run env n (_decryptEntries source batch inboundSessionTxn) w in
  disposedBeforeWriteTxn (observed (trace r)) = true →
  Forall (λ c, writesStorage c = false) (issued (trace r))
  ∧ Forall (λ c, appliesResults c = false) (called (trace r))
  ∧ committed (storage (world r)) = committed (storage w)
  ∧ (∀ l e, heap w !! l = Some e → heap (world r) !! l = Some e)
  ∧ awaitedCalls (afterDispose (observed (trace r))) = [].
Proof.
  intros r. remember r as r' eqn:Hr. subst r.
  unfold _decryptEntries, writeDecryptionChanges in Hr.
  destruct inboundSessionTxn as [txn|]; cbn in Hr.
  all: explore_in Hr.
  all: subst r'; autorewrite with shape; cbn [app].
  all: frames.
  all: intros Hd.
  all: try by undisposed Hd.
  all: split_and!.
  all: try by repeat constructor.
  all: try (intros l e' Hl; eapply prefix_lookup_Some; [done|chain_prefix]).
  all: try by repeat first
         [ apply Forall_nil_2 | apply Forall_cons_2; [done|]
         | apply Forall_app_2; [by eapply byOthers_appliesResults|]
         | by eapply byOthers_appliesResults ].
  all: by silent_after_dispose.
Qed.

Lemma decryptEntries_cancelled_before_write_witness :
  let r := run (Sample.disposedAt 1) 0 (_decryptEntries Retry [0] None) Sample.oneEntryWorld in
  disposedBeforeWriteTxn (observed (trace r)) = true
  ∧ awaitedCalls (afterDispose (observed (trace r))) = []
  ∧ heap (world r) !! 0 = Some (newEventEntry (Sample.stored (Sample.encrypted "$e1"))).
Proof.
  intros r.
  destruct (decryptEntries_cancelled_before_write
              (Sample.disposedAt 1) 0 Sample.oneEntryWorld Retry [0] None)
    as (_ & _ & _ & Hheap & Hafter); [reflexivity|].
  split; [reflexivity|]. split; [exact Hafter|]. by apply Hheap.
Defined.

Ltac locate H :=
  repeat match type of H with
         | _ ∈ _ :: _ => apply elem_of_cons in H as [H|H]; [try discriminate H|]
         | _ ∈ _ ++ _ => apply elem_of_app in H as [H|H]
         | _ ∈ [] => by apply elem_of_nil in H
         end.

(** What is known of a step that other tasks took. *)
Ltac other_step Hin :=
  match type of Hin with
  | (?w0, _) ∈ ?ti =>
      match goal with
      | Hs : Forall (interferenceStep _ _) ti |- _ =>
          let Hp := fresh "Hheld" in
          pose proof (proj1 (Forall_forall _ _) Hs _ Hin) as (Hp & _ & _);
          cbn in Hp
      end
  end.

Ltac disposed_in Hin :=
  match type of Hin with
  | (?w0, Interfered RequestDispose) ∈ ?ti =>
      match goal with
      | Hd : ∀ w, (w, Interfered RequestDispose) ∈ ti → _ |- _ =>
          let Hc := fresh "Hflag" in
          let Hp := fresh "Hdisposed" in
          destruct (Hd _ Hin) as [Hc Hp]
      end
  end.

Lemma byOthers_disposes (held : option Preparation) (p : Preparation) (cs : list SyncCall) :
  (held = None ∨ held = Some p) →
  Forall (λ c, c = TimelineDispose ∨ c = NotifyTimelineClosed
               ∨ ∃ q, held = Some q ∧ c = PreparationDispose q) cs →
  Forall (λ c, match c with PreparationDispose q => q = p | _ => True end) cs.
Proof.
  intros Hheld H. eapply Forall_impl; [done|].
  intros c [->|[->|(q & Hq & ->)]]; try done.
  destruct Hheld; congruence.
Qed.

(** X8: when a decryption request is disposed while it holds a prepared
    plan, which is while [decrypt()] of that plan is awaited, [dispose()] is
    called on that plan and on no other, and the request opens no
    read-write transaction, writes nothing and commits nothing, whatever
    the other tasks do and however the awaited promises settle. *)
Theorem decryptEntries_disposes_held_preparation
    (env : Env) (n : nat) (w : World) (source : DecryptionSource)
    (batch : list Loc) (inboundSessionTxn : option TxnId)
    (w0 : World) (p : Preparation) :
  let r := run env n (_decryptEntries source batch inboundSessionTxn) w in
  (w0, Interfered RequestDispose) ∈ trace r →
  preparation (request w0) = Some p →
  PreparationDispose p ∈ called (trace r)
  ∧ PreparationDecrypt p ∈ issued (trace r)
  ∧ Forall (λ c, match c with PreparationDispose q => q = p | _ => True end)
           (called (trace r))
  ∧ Forall (λ c, writesStorage c = false) (issued (trace r))
  ∧ committed (storage (world r)) = committed (storage w).
Proof.
  intros r. remember r as r' eqn:Hr. subst r.
  unfold _decryptEntries, writeDecryptionChanges in Hr.
  destruct inboundSessionTxn as [txn|]; cbn in Hr.
  all: explore_in Hr.
  all: subst r'; autorewrite with shape; cbn [app].
  all: frames.
  all: intros Hin Hprep.
  all: locate Hin.
  all: other_step Hin; try congruence.
  all: disposed_in Hin; try congruence.
  all: rewrite Hheld in Hprep; injection Hprep as <-.
  all: split_and!; [| | |by repeat constructor|done].
  all: try (apply Forall_cons_2; [done|]).
  all: repeat first
         [ apply Forall_app_2; [(eapply byOthers_disposes; [|eassumption]); by auto|]
         | (eapply byOthers_disposes; [|eassumption]); by auto ].
  all: autorewrite with shape; cbn [app].
  all: rewrite ?elem_of_cons, ?elem_of_app; auto 10.
Qed.

Lemma decryptEntries_disposes_held_preparation_witness :
  let r := run (Sample.disposedAt 2) 0 (_decryptEntries Retry [0] None) Sample.oneEntryWorld in
  PreparationDispose 7 ∈ called (trace r)
  ∧ Forall (λ c, writesStorage c = false) (issued (trace r)).
Proof.
  intros r.
  pose (w0 := default Sample.emptyWorld (fst <$> trace r !! 4)).
  destruct (decryptEntries_disposes_held_preparation
              (Sample.disposedAt 2) 0 Sample.oneEntryWorld Retry [0] None w0 7)
    as (Hdisposed & _ & _ & Hwrites & _).
  - apply list_elem_of_lookup. exists 4. reflexivity.
  - reflexivity.
  - split; assumption.
Defined.

(** ** Transactions *)

Lemma lookup_snoc {A : Type} (l : list A) (x : A) : (l ++ [x]) !! length l = Some x.
Proof. by apply list_lookup_middle. Qed.

Lemma alter_snoc {A : Type} (f : A → A) (l : list A) (x : A) :
  alter f (length l) (l ++ [x]) = l ++ [f x].
Proof.
  replace (length l) with (length l + 0) by lia.
  by rewrite (alter_app_r f l [x] 0).
Qed.

Lemma insert_snoc {A : Type} (l : list A) (x y : A) :
  <[length l := y]> (l ++ [x]) = l ++ [y].
Proof.
  replace (length l) with (length l + 0) at 1 by lia.
  by rewrite insert_app_r.
Qed.

Ltac storage_norm :=
  repeat first [ rewrite alter_snoc in *
               | rewrite insert_snoc in *
               | rewrite lookup_snoc in *
               | progress cbn in * ].

Ltac locate_eq H :=
  repeat match type of H with
         | _ ∈ _ :: _ => apply elem_of_cons in H as [H|H]; [simplify_eq|]
         | _ ∈ _ ++ _ => apply elem_of_app in H as [H|H]
         | _ ∈ [] => by apply elem_of_nil in H
         end.

(** Other tasks await nothing. *)
Ltac not_awaited Hin :=
  match type of Hin with
  | (_, Awaited _ _) ∈ ?ti =>
      match goal with
      | Hs : Forall (interferenceStep _ _) ti |- _ =>
          by destruct (proj1 (Forall_forall _ _) Hs _ Hin) as (_ & _ & ?)
      end
  end.

Lemma others_appliedAfterCommit
    (calls : list AsyncCall) (held : option Preparation) (st : Storage) (ti : Trace) :
  Forall (interferenceStep held st) ti → Forall (appliedAfterCommit calls) ti.
Proof.
  intros H. eapply Forall_impl; [done|]. intros [w0 o] (_ & _ & Ho).
  unfold appliedAfterCommit. cbn in *.
  destruct o as [c| |]; try done. by destruct Ho as [->|[->|(p & _ & ->)]].
Qed.

Ltac find_elem :=
  solve [ repeat first [ apply list_elem_of_here
                       | apply list_elem_of_further
                       | apply elem_of_app; right ] ].

Ltac applied_after_commit :=
  repeat first
    [ apply Forall_nil_2
    | apply Forall_app_2; [by eapply others_appliedAfterCommit|]
    | by eapply others_appliedAfterCommit
    | apply Forall_cons_2;
      [ first [ exact I
              | unfold appliedAfterCommit; cbn [fst snd];
                eexists _, _, _; split_and!; [find_elem|find_elem|apply lookup_snoc|done] ]
      | ] ].

Ltac nothing_applied :=
  repeat first
    [ apply Forall_nil_2
    | apply Forall_cons_2; [done|]
    | apply Forall_app_2; [by eapply byOthers_appliesResults|]
    | by eapply byOthers_appliesResults ].

(** C3: when [changes.write] or [verifySenders] of a decryption request
    throws, the request rejects with that error, the read-write transaction
    has been aborted, storage holds what it held before, and no results are
    applied to the entries; and whenever results are applied, the
    transaction they were written into is committed. *)
Theorem decryptEntries_write_failure_aborts
    (env : Env) (n : nat) (w : World) (source : DecryptionSource)
    (batch : list Loc) (inboundSessionTxn : option TxnId) :
  let r := run env n (_decryptEntries source batch inboundSessionTxn) w in
  (∀ w0 k c txn e,
     (w0, Awaited k c) ∈ trace r → writesTo c = Some txn → rejection env k = Some e →
     outcome r = Rejected e
     ∧ TxnAbort txn ∈ called (trace r)
     ∧ committed (storage (world r)) = committed (storage w)
     ∧ (txn_status <$> txns (storage (world r)) !! txn) = Some TxnAborted
     ∧ (∀ l e, heap w !! l = Some e → heap (world r) !! l = Some e)
     ∧ Forall (λ c, appliesResults c = false) (called (trace r)))
  ∧ Forall (appliedAfterCommit (issued (trace r))) (trace r).
Proof.
  intros r. remember r as r' eqn:Hr. subst r.
  unfold _decryptEntries, writeDecryptionChanges in Hr.
  destruct inboundSessionTxn as [txn0|]; cbn in Hr.
  all: explore_in Hr.
  all: subst r'; autorewrite with shape; cbn [app].
  all: frames.
  all: unfold txnIsOpen, txnComplete, txnAbort, txnPut in *.
  all: storage_norm.
  all: try discriminate.
  all: split.
  all: try (intros w0 k c txn e' Hin Hw Hk; locate_eq Hin; try not_awaited Hin;
            try discriminate; try congruence).
  all: try by applied_after_commit.
  all: cbn in Hw; simplify_eq.
  all: split_and!; [done| |done|by rewrite lookup_snoc| |by nothing_applied].
  all: try (intros l e' Hl; eapply prefix_lookup_Some; [done|chain_prefix]).
  all: autorewrite with shape; cbn [app].
  all: find_elem.
Qed.

Lemma decryptEntries_write_failure_aborts_witness :
  let r := run (Sample.failingAt 4) 0 (_decryptEntries Retry [0] None) Sample.openWorld in
  outcome r = Rejected (Failure 1)
  ∧ TxnAbort 2 ∈ called (trace r)
  ∧ committed (storage (world r)) = committed (storage Sample.openWorld).
Proof.
  intros r.
  pose (w0 := default Sample.emptyWorld (fst <$> trace r !! 5)).
  destruct (proj1 (decryptEntries_write_failure_aborts
                     (Sample.failingAt 4) 0 Sample.openWorld Retry [0] None)
                  w0 4 (ChangesWrite 9 2) 2 (Failure 1))
    as (Hout & Habort & Hcommitted & _).
  - apply list_elem_of_lookup. exists 5. reflexivity.
  - reflexivity.
  - reflexivity.
  - split_and!; assumption.
Defined.

Lemma others_verifiedInWriteTxn
    (stores : list StoreName) (calls : list AsyncCall)
    (held : option Preparation) (st : Storage) (ti : Trace) :
  Forall (interferenceStep held st) ti → Forall (verifiedInWriteTxn stores calls) ti.
Proof.
  intros H. eapply Forall_impl; [done|]. intros [w0 o] (_ & _ & Ho).
  unfold verifiedInWriteTxn. cbn in *. by destruct o.
Qed.

Ltac verified_in_write_txn :=
  repeat first
    [ apply Forall_nil_2
    | apply Forall_app_2; [by eapply others_verifiedInWriteTxn|]
    | by eapply others_verifiedInWriteTxn
    | apply Forall_cons_2;
      [ first [ exact I
              | unfold verifiedInWriteTxn; cbn [fst snd];
                eexists _, _; split_and!;
                [find_elem|apply lookup_snoc|done|done|done] ]
      | ] ].

(** C5, as amended: the read-write transaction of a decryption request
    covers the decrypted-session store, and the device-identity store as
    well exactly when the live timeline is open as [readWriteTxn] is called;
    in a request whose [changes.write] returns normally the senders are
    verified if and only if the timeline was open then; and the senders are
    verified in that same transaction, while it is still open. *)
Theorem decryptEntries_verifies_senders
    (env : Env) (n : nat) (w : World) (source : DecryptionSource)
    (batch : list Loc) (inboundSessionTxn : option TxnId)
    (w0 : World) (k : nat) (stores : list StoreName) :
  let r := run env n (_decryptEntries source batch inboundSessionTxn) w in
  (w0, Awaited k (ReadWriteTxn stores)) ∈ trace r →
  stores = groupSessionDecryptions
           :: (if _isTimelineOpen (room w0) then [deviceIdentities] else [])
  ∧ ((∃ w1 k1 changes txn,
        (w1, Awaited k1 (ChangesWrite changes txn)) ∈ trace r
        ∧ rejection env k1 = None) →
     ((∃ d txn, VerifySenders d txn ∈ issued (trace r))
      ↔ _isTimelineOpen (room w0) = true))
  ∧ Forall (verifiedInWriteTxn stores (issued (trace r))) (trace r).
Proof.
  intros r. remember r as r' eqn:Hr. subst r.
  unfold _decryptEntries, writeDecryptionChanges in Hr.
  destruct inboundSessionTxn as [txn0|]; cbn in Hr.
  all: explore_in Hr.
  all: subst r'; autorewrite with shape; cbn [app].
  all: frames.
  all: unfold txnIsOpen, txnComplete, txnAbort, txnPut in *.
  all: storage_norm.
  all: try discriminate.
  all: intros Hin; locate_eq Hin; try not_awaited Hin.
  all: cbn [room setRequest setStorage setRoom setHeap].
  all: match goal with H : _isTimelineOpen _ = _ |- _ => rewrite H end.
  all: split_and!; [done| |by verified_in_write_txn].
  all: intros (w1 & k1 & ch & t & Hin1 & Hk1); locate_eq Hin1; try not_awaited Hin1.
  all: try congruence.
  all: split; [|try done].
  all: try (intros (d & t & Hv); by locate_eq Hv).
  all: try (intros _; eexists _, _; find_elem).
Qed.

Lemma decryptEntries_verifies_senders_witness :
  let r := run Sample.quiet 0 (_decryptEntries Retry [0] None) Sample.openWorld in
  ∃ d txn, VerifySenders d txn ∈ issued (trace r).
Proof.
  intros r.
  pose (w0 := default Sample.emptyWorld (fst <$> trace r !! 4)).
  destruct (decryptEntries_verifies_senders
              Sample.quiet 0 Sample.openWorld Retry [0] None
              w0 3 [groupSessionDecryptions; deviceIdentities])
    as (_ & Hiff & _).
  - apply list_elem_of_lookup. exists 4. reflexivity.
  - apply Hiff; [|reflexivity].
    exists (default Sample.emptyWorld (fst <$> trace r !! 5)), 4, 9, 2.
    split; [|reflexivity]. apply list_elem_of_lookup. exists 5. reflexivity.
Defined.

(** C5, as stated, fails: with the timeline open, a request whose
    [changes.write] throws does not verify the senders. *)
Lemma verifySenders_skipped_when_write_throws :
  ¬ (∀ (env : Env) (n : nat) (w : World) (source : DecryptionSource)
       (batch : list Loc) (inboundSessionTxn : option TxnId)
       (w0 : World) (k : nat) (stores : list StoreName),
       let r := run env n (_decryptEntries source batch inboundSessionTxn) w in
       (w0, Awaited k (ReadWriteTxn stores)) ∈ trace r →
       ((∃ d txn, VerifySenders d txn ∈ issued (trace r))
        ↔ _isTimelineOpen (room w0) = true)).
Proof.
  intros Hclaim.
  pose (r := run (Sample.failingAt 4) 0 (_decryptEntries Retry [0] None) Sample.openWorld).
  pose (w0 := default Sample.emptyWorld (fst <$> trace r !! 4)).
  destruct (Hclaim (Sample.failingAt 4) 0 Sample.openWorld Retry [0] None
                   w0 3 [groupSessionDecryptions; deviceIdentities]) as [_ Hverified].
  - apply list_elem_of_lookup. exists 4. reflexivity.
  - destruct (Hverified eq_refl) as (d & txn & Hin).
    apply list_elem_of_In in Hin. vm_compute in Hin. intuition discriminate.
Qed.

(** ** Opening the timeline, filling a gap *)

(** C6: [openTimeline] on a room whose timeline is open throws and leaves
    the room, with its timeline, as it is; and a first [openTimeline] has
    set the timeline by the time it is suspended on [load], so that this
    holds while the first call is still resolving. *)
Theorem openTimeline_while_open (env : Env) (n : nat) :
  (∀ w, _isTimelineOpen (room w) = true →
        let r := run env n openTimeline w in
        outcome r = Rejected (JsError "not dealing with load race here for now")
        ∧ world r = w
        ∧ issued (trace r) = [])
  ∧ (∀ w, _isTimelineOpen (room w) = false →
          pending openTimeline w = Some TimelineLoad
          ∧ _isTimelineOpen (room (runSync openTimeline w).2) = true).
Proof.
  split; intros w Hopen; unfold openTimeline; cbn; rewrite Hopen; cbn.
  - done.
  - by destruct (_roomEncryption (room w)).
Qed.

Lemma openTimeline_while_open_witness :
  let w := (runSync openTimeline Sample.emptyWorld).2 in
  let r := run Sample.quiet 0 openTimeline w in
  pending openTimeline Sample.emptyWorld = Some TimelineLoad
  ∧ outcome r = Rejected (JsError "not dealing with load race here for now")
  ∧ world r = w.
Proof.
  intros w r.
  destruct (proj2 (openTimeline_while_open Sample.quiet 0) Sample.emptyWorld)
    as [Hpending Hopen]; [reflexivity|].
  destruct (proj1 (openTimeline_while_open Sample.quiet 0) w Hopen)
    as (Hthrows & Hworld & _).
  split_and!; assumption.
Defined.

(** C9: [fillGap] on a fragment entry whose edge is reached returns at
    once: it awaits nothing, so it sends no request and opens no
    transaction, it only sets fields of its log item, and it leaves the
    room, the storage and the entry objects as they are. *)
Theorem fillGap_edgeReached
    (env : Env) (n : nat) (w : World) (fragmentEntry : FragmentEntry) (amount : nat) :
  edgeReached fragmentEntry = true →
  let r := run env n (fillGap fragmentEntry amount) w in
  outcome r = Fulfilled tt
  ∧ world r = w
  ∧ ticks r = n
  ∧ issued (trace r) = []
  ∧ called (trace r)
    = [LogSet "id" (JsString (_roomId (room w)));
       LogSet "fragment" (JsNumber (Z.of_nat (fe_fragmentId fragmentEntry)));
       LogSet "dir" (JsString (asApiString (direction fragmentEntry)));
       LogSet "edgeReached" (JsBoolean true)].
Proof.
  intros Hedge. unfold fillGap. cbn. by rewrite Hedge.
Qed.

Lemma fillGap_edgeReached_witness :
  let r := run Sample.quiet 0 (fillGap (Sample.gap true) 20) Sample.oneEntryWorld in
  outcome r = Fulfilled tt ∧ world r = Sample.oneEntryWorld ∧ issued (trace r) = [].
Proof.
  intros r.
  destruct (fillGap_edgeReached Sample.quiet 0 Sample.oneEntryWorld (Sample.gap true) 20)
    as (Hout & Hworld & _ & Hissued & _); [reflexivity|].
  split_and!; assumption.
Defined.

(** ** Sequencing *)

Lemma after_after {R : Type} (t1 t2 : Trace) (r : Result R) :
  after t1 (after t2 r) = after (t1 ++ t2) r.
Proof. unfold after. cbn. by rewrite app_assoc. Qed.

Lemma andThen_after {A B : Type} (env : Env) (t : Trace) (r : Result A) (f : A → Prog B) :
  andThen env (after t r) f = after t (andThen env r f).
Proof.
  unfold andThen. cbn. destruct (outcome r); [|done].
  by rewrite after_after.
Qed.

Lemma orElse_after {A : Type} (env : Env) (t : Trace) (r : Result A) (h : Error → Prog A) :
  orElse env (after t r) h = after t (orElse env r h).
Proof.
  unfold orElse. cbn. destruct (outcome r); [done|].
  by rewrite after_after.
Qed.

Lemma run_bind {A B : Type} (env : Env) (p : Prog A) (f : A → Prog B) (n : nat) (w : World) :
  run env n (bind p f) w = andThen env (run env n p w) f.
Proof.
  revert n w. induction p as [a|e|k IH|g k IH|c k IH|c k IH]; intros n w; cbn.
  - unfold andThen, after. cbn. by destruct (run env n (f a) w).
  - done.
  - apply IH.
  - apply IH.
  - by rewrite IH, andThen_after.
  - destruct (interfereAll (interference env n) w) as [ti wi].
    destruct (settle env n c wi) as [ws o]. by rewrite IH, andThen_after.
Qed.

Lemma run_tryCatch {A : Type} (env : Env) (p : Prog A) (h : Error → Prog A)
    (n : nat) (w : World) :
  run env n (tryCatch p h) w = orElse env (run env n p w) h.
Proof.
  revert n w. induction p as [a|e|k IH|g k IH|c k IH|c k IH]; intros n w; cbn.
  - done.
  - unfold orElse, after. cbn. by destruct (run env n (h e) w).
  - apply IH.
  - apply IH.
  - by rewrite IH, orElse_after.
  - destruct (interfereAll (interference env n) w) as [ti wi].
    destruct (settle env n c wi) as [ws o]. by rewrite IH, orElse_after.
Qed.

Section Issues.
Context {R : Type} (P : AsyncCall → Prop).

Lemma Issues_Ret (r : R) : Issues P (Ret r).
Proof. intros env n w. by cbn. Qed.

Lemma Issues_Throw (e : Error) : Issues P (@Throw R e).
Proof. intros env n w. by cbn. Qed.

Lemma Issues_Read (k : World → Prog R) : (∀ w, Issues P (k w)) → Issues P (Read k).
Proof. intros H env n w. apply H. Qed.

Lemma Issues_Update (f : World → World) (k : Prog R) : Issues P k → Issues P (Update f k).
Proof. intros H env n w. apply H. Qed.

Lemma Issues_Call (c : SyncCall) (k : Prog R) : Issues P k → Issues P (Call c k).
Proof. intros H env n w. cbn. autorewrite with shape. apply H. Qed.

Lemma Issues_Await (c : AsyncCall) (k : Outcome (Resolved c) → Prog R) :
  P c → (∀ o, Issues P (k o)) → Issues P (Await c k).
Proof.
  intros Hc H env n w. cbn.
  pose proof (interfereAll_spec (interference env n) w) as Hi.
  destruct (interfereAll (interference env n) w) as [ti wi]. cbn [fst snd] in Hi.
  destruct (settle env n c wi) as [ws o]. autorewrite with shape.
  destruct Hi as [_ -> _ _ _ _]. constructor; [done|]. apply H.
Qed.

Lemma Issues_bind {A : Type} (p : Prog A) (f : A → Prog R) :
  Issues P p → (∀ a, Issues P (f a)) → Issues P (bind p f).
Proof.
  intros Hp Hf env n w. rewrite run_bind. unfold andThen.
  specialize (Hp env n w). destruct (outcome (run env n p w)); [|done].
  autorewrite with shape. apply Forall_app_2; [done|]. apply Hf.
Qed.

Lemma Issues_tryCatch (p : Prog R) (h : Error → Prog R) :
  Issues P p → (∀ e, Issues P (h e)) → Issues P (tryCatch p h).
Proof.
  intros Hp Hh env n w. rewrite run_tryCatch. unfold orElse.
  specialize (Hp env n w). destruct (outcome (run env n p w)); [done|].
  autorewrite with shape. apply Forall_app_2; [done|]. apply Hh.
Qed.
End Issues.

Lemma Issues_forEach {A : Type} (P : AsyncCall → Prop) (xs : list A) (body : A → Prog unit) :
  (∀ x, Issues P (body x)) → Issues P (forEach xs body).
Proof.
  intros H. induction xs as [|x xs IH]; [apply Issues_Ret|].
  apply Issues_bind; [apply H|]. by intros _.
Qed.

Lemma Issues_mapM {A B : Type} (P : AsyncCall → Prop) (f : A → Prog B) (xs : list A) :
  (∀ x, Issues P (f x)) → Issues P (mapM f xs).
Proof.
  intros H. induction xs as [|x xs IH]; [apply Issues_Ret|].
  apply Issues_bind; [apply H|]. intros y.
  apply Issues_bind; [apply IH|]. intros ys. apply Issues_Ret.
Qed.

(** Decides [Issues] by the shape of the program. *)
Ltac issues :=
  repeat first
    [ lazymatch goal with
      | |- Issues _ (Ret _) => apply Issues_Ret
      | |- Issues _ (Throw _) => apply Issues_Throw
      | |- Issues _ (Read _) => apply Issues_Read; intros ?
      | |- Issues _ (Update _ _) => apply Issues_Update
      | |- Issues _ (Call _ _) => apply Issues_Call
      | |- Issues _ (Await _ _) => apply Issues_Await; [done|intros [?|?]]
      | |- Issues _ (forEach _ _) => apply Issues_forEach; intros ?
      | |- Issues _ (mapM _ _) => apply Issues_mapM; intros ?
      | |- Issues _ (bind _ _) => apply Issues_bind; [|intros ?]
      | |- Issues _ (mbind _ _) => apply Issues_bind; [|intros ?]
      | |- Issues _ (await _) => unfold await
      | |- Issues _ (call _) => unfold call
      | |- Issues _ (get _) => unfold get
      | |- Issues _ (modify _) => unfold modify
      | |- Issues _ (tryCatch _ _) => apply Issues_tryCatch; [|intros ?]
      | |- Issues _ (if ?b then _ else _) => destruct b
      | |- Issues _ (match ?x with _ => _ end) => destruct x
      end
    | progress cbn ].

Lemma decryptEntries_issues
    (source : DecryptionSource) (batch : list Loc) (inboundSessionTxn : option TxnId) :
  Issues (λ c, gapWriteTo c = None) (_decryptEntries source batch inboundSessionTxn).
Proof.
  unfold _decryptEntries, writeDecryptionChanges. issues.
Qed.

Lemma issued_of_step (t : Trace) (w0 : World) (k : nat) (c : AsyncCall) :
  (w0, Awaited k c) ∈ t → c ∈ issued t.
Proof.
  intros Hin. unfold issued, awaitedCalls, observed.
  apply list_elem_of_omap. exists (Awaited k c). split; [|done].
  apply list_elem_of_fmap. by exists (w0, Awaited k c).
Qed.

Lemma called_of_step (t : Trace) (w0 : World) (c : SyncCall) :
  (w0, Called c) ∈ t → c ∈ called t.
Proof.
  intros Hin. unfold called, syncCalls, observed.
  apply list_elem_of_omap. exists (Called c). split; [|done].
  apply list_elem_of_fmap. by exists (w0, Called c).
Qed.

(** ** Filling a gap *)

Global Arguments _decryptEntries : simpl never.

Lemma others_gapWrittenIn
    (txn : TxnId) (before : list StoreRecord)
    (held : option Preparation) (st : Storage) (ti : Trace) :
  Forall (interferenceStep held st) ti → Forall (gapWrittenIn txn before) ti.
Proof.
  intros H. eapply Forall_impl; [done|]. intros [w0 o] (_ & _ & Ho).
  unfold gapWrittenIn. cbn in *. by destruct o.
Qed.

Lemma issues_gapWrittenIn (txn : TxnId) (before : list StoreRecord) (t : Trace) :
  Forall (λ c, gapWriteTo c = None) (issued t) → Forall (gapWrittenIn txn before) t.
Proof.
  intros H. apply Forall_forall. intros [w0 o] Hin. unfold gapWrittenIn. cbn.
  destruct o as [|k c|]; try done.
  apply issued_of_step in Hin. rewrite Forall_forall in H. by rewrite (H c Hin).
Qed.

Lemma byOthers_updatesMemory (held : option Preparation) (cs : list SyncCall) :
  Forall (λ c, c = TimelineDispose ∨ c = NotifyTimelineClosed
               ∨ ∃ p, held = Some p ∧ c = PreparationDispose p) cs →
  Forall (λ c, updatesMemory c = false) cs.
Proof.
  intros H. eapply Forall_impl; [done|]. by intros c [->|[->|(p & _ & ->)]].
Qed.

Ltac gap_written_in :=
  repeat first
    [ apply Forall_nil_2
    | apply Forall_app_2; [by eapply others_gapWrittenIn|]
    | by eapply others_gapWrittenIn
    | by apply issues_gapWrittenIn
    | apply Forall_cons_2;
      [ first [ exact I
              | unfold gapWrittenIn; cbn [fst snd gapWriteTo];
                split_and!; [done|done|];
                eexists; split_and!; [apply lookup_snoc|done|done|done] ]
      | ] ].

Ltac memory_untouched :=
  repeat first
    [ apply Forall_nil_2
    | apply Forall_cons_2; [done|]
    | apply Forall_app_2; [by eapply byOthers_updatesMemory|]
    | by eapply byOthers_updatesMemory ].

(** X1: [fillGap] writes a gap fill into one transaction, opened for reading
    and writing over the pending-events, timeline-events and
    timeline-fragments stores, with nothing committed while it writes; when
    [_writeGapFill] or [writeFragmentFill] throws, [fillGap] has aborted that
    transaction, rejects with the same error, leaves storage as it was, and
    touches neither the fragment comparer nor the timeline. *)
Theorem fillGap_single_transaction
    (env : Env) (n : nat) (w : World) (fragmentEntry : FragmentEntry) (amount : nat) :
  let r := run env n (fillGap fragmentEntry amount) w in
  let txn := length (txns (storage w)) in
  Forall (gapWrittenIn txn (committed (storage w))) (trace r)
  ∧ ∀ w0 k c t e,
      (w0, Awaited k c) ∈ trace r → gapWriteTo c = Some t → rejection env k = Some e →
      outcome r = Rejected e
      ∧ TxnAbort txn ∈ called (trace r)
      ∧ committed (storage (world r)) = committed (storage w)
      ∧ (txn_status <$> txns (storage (world r)) !! txn) = Some TxnAborted
      ∧ Forall (λ c, updatesMemory c = false) (called (trace r))
      ∧ _fragmentIdComparer (room (world r)) = _fragmentIdComparer (room w).
Proof.
  intros r txn. subst txn. remember r as r' eqn:Hr. subst r.
  unfold fillGap in Hr. cbn in Hr.
  explore_in Hr.
  all: try match type of Hr with
           | context [run _ _ ?p _] =>
               assert (Issues (λ c, gapWriteTo c = None) p) as Htail
                 by (issues; apply decryptEntries_issues)
           end.
  all: subst r'; autorewrite with shape; cbn [app].
  all: frames.
  all: unfold txnIsOpen, txnComplete, txnAbort, txnPut in *.
  all: storage_norm.
  all: try discriminate.
  all: split; [by gap_written_in|].
  all: intros w0 k c t e' Hin Hw Hk; locate_eq Hin; try not_awaited Hin;
       try discriminate; try congruence.
  all: try (apply issued_of_step in Hin;
            match goal with
            | H : Issues _ _ |- _ =>
                pose proof (proj1 (Forall_forall _ _) (H _ _ _) _ Hin); congruence
            end).
  all: cbn in Hw; simplify_eq.
  all: split_and!; [done|find_elem|done|done|by memory_untouched|congruence].
Qed.

Lemma fillGap_single_transaction_witness :
  let r := run (Sample.failingAt 3) 0 (fillGap (Sample.gap false) 20) Sample.oneEntryWorld in
  outcome r = Rejected (Failure 1)
  ∧ TxnAbort 1 ∈ called (trace r)
  ∧ committed (storage (world r)) = committed (storage Sample.oneEntryWorld).
Proof.
  intros r.
  pose (w0 := default Sample.emptyWorld (fst <$> trace r !! 6)).
  destruct (proj2 (fillGap_single_transaction
                     (Sample.failingAt 3) 0 Sample.oneEntryWorld (Sample.gap false) 20)
                  w0 3
                  (WriteFragmentFill (Sample.gap false) (r_response Sample.quietReply) 1)
                  1 (Failure 1))
    as (Hout & Habort & Hcommitted & _).
  - apply list_elem_of_lookup. exists 6. reflexivity.
  - reflexivity.
  - reflexivity.
  - split_and!; assumption.
Defined.

(** X2: when the request for messages fails, [fillGap] rejects with that
    error having opened no transaction: storage, with its transactions, is
    as it was, and neither the fragment comparer nor the timeline is
    touched. *)
Theorem fillGap_transport_failure
    (env : Env) (n : nat) (w : World) (fragmentEntry : FragmentEntry) (amount : nat)
    (e : Error) :
  edgeReached fragmentEntry = false →
  rejection env n = Some e →
  let r := run env n (fillGap fragmentEntry amount) w in
  outcome r = Rejected e
  ∧ issued (trace r)
    = [HsApiMessages (_roomId (room w)) (token fragmentEntry)
         (asApiString (direction fragmentEntry)) amount]
  ∧ storage (world r) = storage w
  ∧ Forall (λ c, updatesMemory c = false) (called (trace r))
  ∧ _fragmentIdComparer (room (world r)) = _fragmentIdComparer (room w).
Proof.
  intros Hedge Hrej r. remember r as r' eqn:Hr. subst r.
  unfold fillGap in Hr. cbn in Hr. rewrite Hedge in Hr. cbn in Hr.
  interfere_in Hr. unfold settle in Hr. rewrite Hrej in Hr. cbn in Hr.
  subst r'; autorewrite with shape; cbn [app].
  frames. split_and!; [done|done|done|by memory_untouched|done].
Qed.

Lemma fillGap_transport_failure_witness :
  let r := run (Sample.failingAt 0) 0 (fillGap (Sample.gap false) 20) Sample.oneEntryWorld in
  outcome r = Rejected (Failure 1) ∧ storage (world r) = storage Sample.oneEntryWorld.
Proof.
  intros r.
  destruct (fillGap_transport_failure
              (Sample.failingAt 0) 0 Sample.oneEntryWorld (Sample.gap false) 20 (Failure 1))
    as (Hout & _ & Hstorage & _); [reflexivity|reflexivity|].
  split; assumption.
Defined.

(** ** What a program calls, what it keeps *)

Section Calls.
Context {R : Type} (P : SyncCall → Prop).
Hypothesis others :
  P TimelineDispose ∧ P NotifyTimelineClosed ∧ ∀ p, P (PreparationDispose p).

Lemma Calls_Ret (r : R) : Calls P (Ret r).
Proof. intros env n w. by cbn. Qed.

Lemma Calls_Throw (e : Error) : Calls P (@Throw R e).
Proof. intros env n w. by cbn. Qed.

Lemma Calls_Read (k : World → Prog R) : (∀ w, Calls P (k w)) → Calls P (Read k).
Proof. intros H env n w. apply H. Qed.

Lemma Calls_Update (f : World → World) (k : Prog R) : Calls P k → Calls P (Update f k).
Proof. intros H env n w. apply H. Qed.

Lemma Calls_Call (c : SyncCall) (k : Prog R) : P c → Calls P k → Calls P (Call c k).
Proof.
  intros Hc H env n w. cbn. autorewrite with shape. constructor; [done|]. apply H.
Qed.

Lemma Calls_Await (c : AsyncCall) (k : Outcome (Resolved c) → Prog R) :
  (∀ o, Calls P (k o)) → Calls P (Await c k).
Proof using others.
  intros H env n w. cbn.
  pose proof (interfereAll_spec (interference env n) w) as Hi.
  destruct (interfereAll (interference env n) w) as [ti wi]. cbn [fst snd] in Hi.
  destruct (settle env n c wi) as [ws o]. autorewrite with shape.
  apply Forall_app_2; [|apply H].
  destruct Hi as [_ _ Hc _ _ _]. eapply Forall_impl; [done|].
  destruct others as (? & ? & ?). by intros c' [->|[->|(p & _ & ->)]].
Qed.
End Calls.

Lemma Calls_bind {A B : Type} (P : SyncCall → Prop) (p : Prog A) (f : A → Prog B) :
  Calls P p → (∀ a, Calls P (f a)) → Calls P (bind p f).
Proof.
  intros Hp Hf env n w. rewrite run_bind. unfold andThen.
  specialize (Hp env n w). destruct (outcome (run env n p w)); [|done].
  autorewrite with shape. apply Forall_app_2; [done|]. apply Hf.
Qed.

Lemma Calls_tryCatch {A : Type} (P : SyncCall → Prop) (p : Prog A) (h : Error → Prog A) :
  Calls P p → (∀ e, Calls P (h e)) → Calls P (tryCatch p h).
Proof.
  intros Hp Hh env n w. rewrite run_tryCatch. unfold orElse.
  specialize (Hp env n w). destruct (outcome (run env n p w)); [done|].
  autorewrite with shape. apply Forall_app_2; [done|]. apply Hh.
Qed.

Lemma Calls_forEach {A : Type} (P : SyncCall → Prop) (xs : list A) (body : A → Prog unit) :
  (∀ x, Calls P (body x)) → Calls P (forEach xs body).
Proof.
  intros H. induction xs as [|x xs IH]; [by intros env n w|].
  apply Calls_bind; [apply H|]. by intros _.
Qed.

Lemma Calls_mapM {A B : Type} (P : SyncCall → Prop) (f : A → Prog B) (xs : list A) :
  (∀ x, Calls P (f x)) → Calls P (mapM f xs).
Proof.
  intros H. induction xs as [|x xs IH]; [by intros env n w|].
  apply Calls_bind; [apply H|]. intros y.
  apply Calls_bind; [apply IH|]. by intros ys env n w.
Qed.

(** Decides [Calls] by the shape of the program. *)
Ltac calls :=
  repeat first
    [ progress cbn
    | lazymatch goal with
      | |- Calls _ (Ret _) => apply Calls_Ret
      | |- Calls _ (Throw _) => apply Calls_Throw
      | |- Calls _ (Read _) => apply Calls_Read; intros ?
      | |- Calls _ (Update _ _) => apply Calls_Update
      | |- Calls _ (Call _ _) => apply Calls_Call; [done|]
      | |- Calls _ (Await _ _) => apply Calls_Await; [done|intros [?|?]]
      | |- Calls _ (forEach _ _) => apply Calls_forEach; intros ?
      | |- Calls _ (mapM _ _) => apply Calls_mapM; intros ?
      | |- Calls _ (bind _ _) => apply Calls_bind; [|intros ?]
      | |- Calls _ (mbind _ _) => apply Calls_bind; [|intros ?]
      | |- Calls _ (tryCatch _ _) => apply Calls_tryCatch; [|intros ?]
      | |- Calls _ (await _) => unfold await
      | |- Calls _ (call _) => unfold call
      | |- Calls _ (get _) => unfold get
      | |- Calls _ (modify _) => unfold modify
      | |- Calls _ (if ?b then _ else _) => destruct b eqn:?
      | |- Calls _ (match ?x with _ => _ end) => destruct x eqn:?
      end ].

Lemma eventIdsToEntries_issues (P : AsyncCall → Prop) (eventIds : list string) (txn : TxnId) :
  (∀ roomId eventId, P (GetByEventId txn roomId eventId)) →
  Issues P (_eventIdsToEntries eventIds txn).
Proof.
  intros HP. induction eventIds as [|eventId eventIds IH]; cbn; issues; done.
Qed.

Lemma eventIdsToEntries_calls (P : SyncCall → Prop) (eventIds : list string) (txn : TxnId) :
  (P TimelineDispose ∧ P NotifyTimelineClosed ∧ ∀ p, P (PreparationDispose p)) →
  Calls P (_eventIdsToEntries eventIds txn).
Proof.
  intros HP. induction eventIds as [|eventId eventIds IH]; cbn; calls; done.
Qed.

(** ** What a decryption request prepares *)

Lemma encryptedEvents_encrypted (h : Heap) (batch : list Loc) :
  Forall (λ ev, type ev = EVENT_ENCRYPTED_TYPE) (encryptedEvents h batch).
Proof.
  apply Forall_forall. intros ev Hin. unfold encryptedEvents in Hin.
  apply list_elem_of_omap in Hin as (l & _ & Hl).
  destruct (h !! l) as [entry|]; [|done].
  destruct (String.eqb (eventType entry) EVENT_ENCRYPTED_TYPE) eqn:Hty; [|done].
  injection Hl as <-. by apply String.eqb_eq in Hty.
Qed.

(** X3: a decryption request opens a read transaction only when none was
    supplied, and then over the inbound-session store alone; it hands
    [prepareDecryptAll] its source, the supplied transaction when there is
    one, and only events of type [m.room.encrypted]. *)
Theorem decryptEntries_prepares
    (source : DecryptionSource) (batch : list Loc) (inboundSessionTxn : option TxnId)
    (env : Env) (n : nat) (w : World) :
  Forall (preparesFrom source inboundSessionTxn)
         (issued (trace (run env n (_decryptEntries source batch inboundSessionTxn) w))).
Proof.
  revert env n w.
  change (Issues (preparesFrom source inboundSessionTxn)
                 (_decryptEntries source batch inboundSessionTxn)).
  unfold _decryptEntries, writeDecryptionChanges.
  destruct inboundSessionTxn as [txn|].
  all: repeat first
    [ progress cbn
    | lazymatch goal with
      | |- Issues _ (Await (PrepareDecryptAll _ _ _) _) =>
          apply Issues_Await;
          [split_and!; [done|congruence|apply encryptedEvents_encrypted]|intros [?|?]]
      end
    | progress issues ].
Qed.

(** ** A request that is not cancelled in time *)

Lemma act_flag (a : Action) (w : World) :
  _cancelled (request (runSync (act a) w).2) = _cancelled (request w) ∨ a = RequestDispose.
Proof.
  destruct a; cbn; auto.
  - destruct (_isTimelineOpen (room w)); cbn; [|auto].
    destruct (_roomEncryption (room w)); auto.
  - destruct (_isTimelineOpen (room w)); auto.
Qed.

Lemma interfereAll_flag (acts : list Action) (w : World) :
  _cancelled (request (interfereAll acts w).2) = true →
  _cancelled (request w) = false →
  Exists (λ o, isDispose o = true) (observed (interfereAll acts w).1).
Proof.
  revert w. induction acts as [|a acts IH]; intros w; cbn; [congruence|].
  pose proof (act_flag a w) as Ha.
  destruct (runSync (act a) w) as [t1 w1]. specialize (IH w1).
  destruct (interfereAll acts w1) as [t2 w2]. cbn in *.
  intros Hend Hstart. rewrite observed_cons, observed_app.
  destruct Ha as [Ha| ->]; [|by left].
  right. apply Exists_app. right. apply IH; congruence.
Qed.

Lemma disposedBeforeWriteTxn_seen (os rest : list Obs) :
  Forall (λ o, isAwaited o = false) os →
  Exists (λ o, isDispose o = true) os →
  disposedBeforeWriteTxn (os ++ rest) = true.
Proof.
  induction 1 as [|o os Ho _ IH]; intros Hex; [by apply Exists_nil in Hex|].
  cbn. destruct (isDispose o) eqn:Hd; [done|].
  apply Exists_cons in Hex as [?|Hex]; [congruence|].
  destruct o as [|? []|]; try done; by apply IH.
Qed.

Lemma others_not_awaited (held : option Preparation) (st : Storage) (ti : Trace) :
  Forall (interferenceStep held st) ti → Forall (λ o, isAwaited o = false) (observed ti).
Proof.
  intros H. apply Forall_forall. intros o Ho.
  apply list_elem_of_fmap in Ho as [[w0 o'] [-> Hin]].
  rewrite Forall_forall in H. apply H in Hin as (_ & _ & Hk). cbn in *. by destruct o'.
Qed.

Ltac interfere_flag_in H :=
  match type of H with
  | context [interfereAll ?a ?w] =>
      let Hfl := fresh "Hflag" in
      pose proof (interfereAll_flag a w) as Hfl; interfere_in H; cbn in Hfl
  end.

(** A dispose that set the flag shows in the trace before [readWriteTxn]. *)
Lemma disposedBeforeWriteTxn_seen_last (os : list Obs) :
  Forall (λ o, isAwaited o = false) os →
  Exists (λ o, isDispose o = true) os →
  disposedBeforeWriteTxn os = true.
Proof.
  intros Hq Hex. rewrite <- (app_nil_r os). by apply disposedBeforeWriteTxn_seen.
Qed.

Ltac disposed_early Hd :=
  exfalso;
  repeat first
    [ rewrite disposedBeforeWriteTxn_quiet in Hd by done
    | rewrite disposedBeforeWriteTxn_seen in Hd
        by (first [by eapply others_not_awaited | done])
    | rewrite disposedBeforeWriteTxn_seen_last in Hd
        by (first [by eapply others_not_awaited | done])
    | progress cbn in Hd ];
  discriminate.

(** Other tasks neither apply results nor update observed events. *)
Ltac not_by_others Hin :=
  repeat match type of Hin with
         | _ ∈ _ :: _ => apply elem_of_cons in Hin as [Hin|Hin]; [discriminate|]
         | _ ∈ _ ++ _ => apply elem_of_app in Hin as [Hin|Hin]
         | _ ∈ [] => by apply elem_of_nil in Hin
         | _ ∈ called ?ti =>
             match goal with
             | H : Forall _ (called ti) |- _ =>
                 by destruct (proj1 (Forall_forall _ _) H _ Hin) as [?|[?|(?&?&?)]]
             end
         end.



(** ** Retrying decryption when a room key arrives *)

(** X5: [notifyRoomKey] on a room without encryption does nothing: it
    awaits nothing, calls nothing, and leaves the room, the storage and the
    entries as they are. *)
Theorem notifyRoomKey_unencrypted
    (env : Env) (n : nat) (w : World) (roomKey : RoomKey) (eventIds : list string) :
  _roomEncryption (room w) = false →
  run env n (notifyRoomKey roomKey eventIds) w
  = {| trace := []; ticks := n; world := w; outcome := Fulfilled tt |}.
Proof. intros Henc. unfold notifyRoomKey. cbn. by rewrite Henc. Qed.

Lemma notifyRoomKey_unencrypted_witness :
  let w := setRoom {| _roomId := "!room"; _timeline := Some {| remoteEntries := [0] |};
                      _roomEncryption := false; _observedEvents := true;
                      _fragmentIdComparer := [] |} Sample.oneEntryWorld in
  let r := run (Sample.disposedAt 0) 0 (notifyRoomKey Sample.key ["$e1"%string]) w in
  trace r = [] ∧ world r = w.
Proof.
  intros w r. subst r.
  by rewrite (notifyRoomKey_unencrypted (Sample.disposedAt 0) 0 w Sample.key ["$e1"%string]).
Defined.

Lemma decryptEntries_calls
    (P : SyncCall → Prop) (source : DecryptionSource) (batch : list Loc)
    (inboundSessionTxn : option TxnId) :
  (P TimelineDispose ∧ P NotifyTimelineClosed ∧ ∀ p, P (PreparationDispose p)) →
  P (NewDecryptionRequest source batch) →
  (∀ txn, P (TxnAbort txn)) →
  (∀ d, P (ApplyToEntries d batch)) →
  P (UpdateEvents batch) →
  Calls P (_decryptEntries source batch inboundSessionTxn).
Proof.
  intros Ho Hnew Habort Happly Hupdate.
  unfold _decryptEntries, writeDecryptionChanges. calls.
Qed.

(** X6: whatever [notifyRoomKey] does, it does to a batch that is not
    empty: a decryption request it makes is a retry for a non-empty batch,
    and results are applied, observed events updated, timeline entries
    replaced and the summary recomputed for non-empty batches only; it never
    adds entries to the timeline, nor touches the fragment comparer. *)
Theorem notifyRoomKey_requests
    (roomKey : RoomKey) (eventIds : list string) (env : Env) (n : nat) (w : World) :
  Forall retryRequest (called (trace (run env n (notifyRoomKey roomKey eventIds) w))).
Proof.
  revert env n w.
  change (Calls retryRequest (notifyRoomKey roomKey eventIds)).
  unfold notifyRoomKey.
  repeat first
    [ progress cbn
    | match goal with
      | H : bool_decide (length ?l ≠ 0) = true |- _ =>
          apply bool_decide_eq_true in H;
          assert (l ≠ []) by (by intros ->); clear H
      end
    | lazymatch goal with
      | |- Calls _ (_eventIdsToEntries _ _) => by apply eventIdsToEntries_calls
      | |- Calls _ (_decryptEntries _ _ _) => by apply decryptEntries_calls
      end
    | progress calls ].
Qed.

(** ** Additional retry entries from the timeline *)

Lemma existingIdsOf_from (h : Heap) (others : list Loc) (acc : gset string) (i : string) :
  i ∈ foldl (λ ids e, match idAt h e with Some i => ids ∪ {[ i ]} | None => ids end)
            acc others
  ↔ i ∈ acc ∨ ∃ l, l ∈ others ∧ idAt h l = Some i.
Proof.
  revert acc. induction others as [|l others IH]; intros acc; cbn.
  - split; [auto|]. intros [?|(l & Hl & _)]; [done|]. by apply elem_of_nil in Hl.
  - rewrite IH. split.
    + intros [Hacc|(l' & Hl' & Hid)].
      * destruct (idAt h l) as [j|] eqn:Hj; [|auto].
        apply elem_of_union in Hacc as [?|Hj']; [auto|].
        apply elem_of_singleton in Hj' as ->. right. exists l.
        split; [apply list_elem_of_here|done].
      * right. exists l'. split; [by apply list_elem_of_further|done].
    + intros [Hacc|(l' & Hl' & Hid)].
      * left. destruct (idAt h l); [|done]. apply elem_of_union. by left.
      * apply elem_of_cons in Hl' as [->|Hl'].
        -- left. rewrite Hid. apply elem_of_union. right. by apply elem_of_singleton.
        -- right. by exists l'.
Qed.

Lemma elem_of_existingIdsOf (h : Heap) (others : list Loc) (i : string) :
  i ∈ existingIdsOf h others ↔ ∃ l, l ∈ others ∧ idAt h l = Some i.
Proof.
  unfold existingIdsOf. rewrite existingIdsOf_from. split; [|auto].
  intros [Hempty|?]; [|done]. by apply not_elem_of_empty in Hempty.
Qed.

(** X7: the additional retry entries are the entries of the live timeline,
    in timeline order, that are encrypted, not decrypted, blocked on one of
    the keys, and whose event id is the id of no entry of the other retry
    entries. *)
Theorem additionalTimelineRetryEntries_spec
    (h : Heap) (tl : Timeline) (otherRetryEntries : list Loc) (roomKeys : list RoomKey) :
  additionalTimelineRetryEntries h tl otherRetryEntries roomKeys
  `sublist_of` remoteEntries tl
  ∧ ∀ l, l ∈ additionalTimelineRetryEntries h tl otherRetryEntries roomKeys
         ↔ l ∈ remoteEntries tl
           ∧ ∃ e, h !! l = Some e
                  ∧ blockedOnKeys roomKeys e = true
                  ∧ ∀ l', l' ∈ otherRetryEntries → idAt h l' ≠ Some (entryId e).
Proof.
  unfold additionalTimelineRetryEntries, filterUndecryptedEventEntriesForKeys.
  split.
  - etrans; apply sublist_filter.
  - intros l. rewrite !list_elem_of_filter. unfold hasId, idAt. split.
    + intros (Hid & Hblocked & Hin). split; [done|].
      destruct (h !! l) as [e|]; [|done]. cbn in *.
      exists e. split_and!; [done|by injection Hblocked|].
      intros l' Hl' Hsame. apply bool_decide_eq_false in Hid. apply Hid.
      apply elem_of_existingIdsOf. by exists l'.
    + intros (Hin & e & He & Hblocked & Hother). rewrite He. cbn.
      split_and!; [|by rewrite Hblocked|done].
      apply bool_decide_eq_false. intros Hex.
      apply elem_of_existingIdsOf in Hex as (l' & Hl' & Hsame).
      by apply (Hother l').
Qed.

(** ** Disposing a request before its plan is stored *)

Lemma interfereAll_disposed (acts : list Action) (w : World) :
  RequestDispose ∈ acts → _cancelled (request (interfereAll acts w).2) = true.
Proof.
  intros Hin.
  assert (∃ w0, (w0, Interfered RequestDispose) ∈ (interfereAll acts w).1) as [w0 Hw0];
    [|by eapply interfereAll_dispose].
  revert w. induction acts as [|a acts IH]; intros w; [by apply elem_of_nil in Hin|].
  cbn. destruct (runSync (act a) w) as [t1 w1].
  apply elem_of_cons in Hin as [<-|Hin].
  - destruct (interfereAll acts w1). exists w. apply list_elem_of_here.
  - destruct (IH Hin w1) as [w0 Hw0]. destruct (interfereAll acts w1). exists w0.
    apply list_elem_of_further, elem_of_app. by right.
Qed.

Ltac interfere_disposed_in H :=
  match type of H with
  | context [interfereAll ?a ?w] =>
      let Hfl := fresh "Hdisposes" in
      pose proof (interfereAll_disposed a w) as Hfl; interfere_in H; cbn in Hfl
  end.

Lemma byOthers_no_plan (cs : list SyncCall) :
  Forall (λ c, c = TimelineDispose ∨ c = NotifyTimelineClosed
               ∨ ∃ p, None = Some p ∧ c = PreparationDispose p) cs →
  Forall (λ c, match c with PreparationDispose _ => False | _ => True end) cs.
Proof.
  intros H. eapply Forall_impl; [done|]. by intros c [->|[->|(p & ? & _)]].
Qed.

(** C7: a decryption request that is disposed while [prepareDecryptAll] is
    awaited does not release the plan.  [dispose()] finds [r.preparation]
    unset; the plan that the promise then resolves to is stored in
    [r.preparation] and the check after it returns: the request ends
    normally, cancelled and still holding the plan, [dispose()] of a plan
    was called at no time, and the plan was not executed.  Nothing is
    written: the request opens no read-write transaction and storage holds
    what it held. *)
Theorem decryptEntries_disposed_while_preparing
    (env : Env) (n : nat) (w : World) (source : DecryptionSource)
    (batch : list Loc) (inboundSessionTxn : option TxnId)
    (w0 : World) (k : nat) (evs : list MatrixEvent) (s : DecryptionSource) (t : TxnId) :
  let r := run env n (_decryptEntries source batch inboundSessionTxn) w in
  (w0, Awaited k (PrepareDecryptAll evs s t)) ∈ trace r →
  RequestDispose ∈ interference env k →
  rejection env k = None →
  outcome r = Fulfilled tt
  ∧ request (world r)
    = {| _cancelled := true; preparation := Some (r_preparation (reply env k)) |}
  ∧ Forall (λ c, match c with PreparationDispose _ => False | _ => True end)
           (called (trace r))
  ∧ Forall (λ c, match c with PreparationDecrypt _ => False | _ => True end)
           (issued (trace r))
  ∧ Forall (λ c, writesStorage c = false) (issued (trace r))
  ∧ committed (storage (world r)) = committed (storage w).
Proof.
  intros r. remember r as r' eqn:Hr. subst r.
  unfold _decryptEntries, writeDecryptionChanges in Hr.
  destruct inboundSessionTxn as [txn|]; cbn in Hr.
  all: repeat first [interfere_disposed_in Hr | settle_in Hr | branch_in Hr].
  all: subst r'; autorewrite with shape; cbn [app].
  all: frames.
  all: intros Hin Hdisp Hfulfils.
  all: locate_eq Hin; try not_awaited Hin.
  all: try congruence.
  all: repeat match goal with
              | H : RequestDispose ∈ _ → _ |- _ =>
                  first [ specialize (H Hdisp) | clear H ]
              end.
  all: try congruence.
  all: repeat match goal with
              | H : preparation (request ?x) = None,
                H' : Forall _ (called _) |- _ => progress rewrite H in H'
              end.
  all: split_and!; try done.
  all: try by repeat constructor.
  all: apply Forall_cons_2; [done|].
  all: repeat first [ apply Forall_app_2; [by apply byOthers_no_plan|]
                    | by apply byOthers_no_plan ].
Qed.

Lemma decryptEntries_disposed_while_preparing_witness :
  let r := run (Sample.disposedAt 1) 0 (_decryptEntries Retry [0] None) Sample.oneEntryWorld in
  outcome r = Fulfilled tt
  ∧ request (world r) = {| _cancelled := true; preparation := Some 7 |}
  ∧ Forall (λ c, match c with PreparationDispose _ => False | _ => True end)
           (called (trace r)).
Proof.
  intros r.
  destruct (decryptEntries_disposed_while_preparing
              (Sample.disposedAt 1) 0 Sample.oneEntryWorld Retry [0] None
              (default Sample.emptyWorld (fst <$> trace r !! 2)) 1
              [Sample.encrypted "$e1"] Retry 1)
    as (Hends & Hheld & Hnone & _).
  - apply list_elem_of_lookup. exists 2. reflexivity.
  - apply list_elem_of_here.
  - reflexivity.
  - split_and!; assumption.
Defined.

(** ** Entries for event ids *)

Lemma eventIdsToEntries_run (txn : TxnId) (eventIds : list string) (env : Env) (n : nat)
    (w : World) :
  let r := run env n (_eventIdsToEntries eventIds txn) w in
  Undisturbed w (world r)
  ∧ ∀ ls, outcome r = Fulfilled ls →
          Forall2 (λ l stored, heap (world r) !! l = Some (newEventEntry stored))
                  ls (storedEvents (storage w) (_roomId (room w)) eventIds)
          ∧ Forall (λ l, length (heap w) ≤ l) ls
          ∧ NoDup ls.
Proof.
  revert n w. induction eventIds as [|eventId eventIds IH]; intros n w.
  { cbn. split; [done|]. intros ls [= <-]. split_and!; constructor. }
  cbn.
  pose proof (interfereAll_spec (interference env n) w) as Hi.
  destruct (interfereAll (interference env n) w) as [ti wi]. cbn [fst snd] in Hi.
  destruct Hi as [Hf _ _ _ _ _].
  unfold settle. cbn. destruct (rejection env n) as [e|]; cbn.
  { split; [done|]. intros ls [=]. }
  assert (storage wi = storage w) as Hst by apply Hf.
  rewrite Hst.
  destruct (getByEventId (committed (storage w)) (_roomId (room w)) eventId)
    as [stored|] eqn:Hstored; cbn.
  - unfold mbind, Prog_bind. rewrite run_bind. unfold andThen. cbn.
    set (w1 := setHeap (heap wi ++ [newEventEntry stored]) wi).
    specialize (IH (S n) w1). cbn in IH. destruct IH as [Hf1 IH].
    assert (Undisturbed w w1) as Hw1.
    { etrans; [done|]. split; try done. cbn. by apply prefix_app_r. }
    destruct (outcome (run env (S n) (_eventIdsToEntries eventIds txn) w1))
      as [ls'|e] eqn:Hout; cbn.
    + split; [by etrans|]. intros ls [= <-].
      destruct (IH ls' eq_refl) as (Hall & Hfresh & Hnodup).
      destruct Hf as [_ _ _ Hheap Hroom _ _].
      rewrite Hroom in Hall. cbn in Hall. rewrite Hst in Hall.
      split_and!.
      * constructor; [|done].
        eapply prefix_lookup_Some; [|apply Hf1]. cbn. apply lookup_snoc.
      * constructor; [by apply prefix_length|].
        eapply Forall_impl; [done|]. cbn. intros l Hl.
        rewrite length_app in Hl. cbn in Hl. apply prefix_length in Hheap. lia.
      * constructor; [|done]. intros Hin.
        rewrite Forall_forall in Hfresh. apply Hfresh in Hin. cbn in Hin.
        rewrite length_app in Hin. cbn in Hin. lia.
    + split; [by etrans|]. intros ls [=].
  - specialize (IH (S n) wi). cbn in IH. destruct IH as [Hf1 IH].
    split; [by etrans|]. intros ls Hls.
    destruct (IH ls Hls) as (Hall & Hfresh & Hnodup).
    destruct Hf as [_ _ _ Hheap Hroom _ _].
    rewrite Hroom, Hst in Hall.
    split_and!; [done| |done].
    eapply Forall_impl; [done|]. cbn. intros l Hl. apply prefix_length in Hheap. lia.
Qed.

Lemma eventIdsToEntries_fulfils (txn : TxnId) (eventIds : list string) (env : Env)
    (n : nat) (w : World) :
  (∀ k, rejection env k = None) →
  ∃ ls, outcome (run env n (_eventIdsToEntries eventIds txn) w) = Fulfilled ls.
Proof.
  intros Hrej. revert n w.
  induction eventIds as [|eventId eventIds IH]; intros n w; [by eexists|].
  cbn. destruct (interfereAll (interference env n) w) as [ti wi].
  unfold settle. rewrite Hrej. cbn.
  destruct (getByEventId _ _ _); cbn; [|apply IH].
  unfold mbind, Prog_bind. rewrite run_bind. unfold andThen.
  edestruct IH as [ls' ->]. cbn. by eexists.
Qed.

(** X9: [_eventIdsToEntries] only reads storage.  When none of the lookups
    fails it returns one new entry object for each event id that storage has
    an event for, in the order of the ids, skipping the ids that storage does
    not know; the objects are new (none is an entry that existed before) and
    pairwise distinct, also when an id is asked for twice, and the entries
    that existed before are still there. *)
Theorem eventIdsToEntries_entries
    (txn : TxnId) (eventIds : list string) (env : Env) (n : nat) (w : World) :
  (∀ k, rejection env k = None) →
  let r := run env n (_eventIdsToEntries eventIds txn) w in
  ∃ ls, outcome r = Fulfilled ls
        ∧ Forall2 (λ l stored, heap (world r) !! l = Some (newEventEntry stored))
                  ls (storedEvents (storage w) (_roomId (room w)) eventIds)
        ∧ Forall (λ l, length (heap w) ≤ l) ls
        ∧ NoDup ls
        ∧ storage (world r) = storage w
        ∧ heap w `prefix_of` heap (world r).
Proof.
  intros Hrej r.
  destruct (eventIdsToEntries_run txn eventIds env n w) as [Hf Hls]. fold r in Hf, Hls.
  destruct (eventIdsToEntries_fulfils txn eventIds env n w Hrej) as [ls Hout].
  fold r in Hout.
  exists ls. destruct (Hls ls Hout) as (? & ? & ?). destruct Hf.
  by split_and!.
Qed.

Lemma eventIdsToEntries_entries_witness :
  ∃ ls, outcome (run Sample.quiet 0
                   (_eventIdsToEntries ["$e1"; "$e0"; "$e1"]%string 0) Sample.oneEntryWorld)
        = Fulfilled ls
        ∧ length ls = 2 ∧ NoDup ls.
Proof.
  destruct (eventIdsToEntries_entries 0 ["$e1"; "$e0"; "$e1"]%string
              Sample.quiet 0 Sample.oneEntryWorld) as (ls & Hout & Hall & _ & Hnodup & _).
  - done.
  - exists ls. split_and!; [done| |done].
    apply Forall2_length in Hall. by rewrite Hall.
Defined.

(** ** The live timeline and the entries of a retry *)

Global Instance TimelineKept_refl : Reflexive TimelineKept.
Proof. intros w. by split. Qed.

Global Instance TimelineKept_trans : Transitive TimelineKept.
Proof.
  intros w1 w2 w3 [] []. split; [tauto| |by etrans].
  intros l Hl Hin. apply kept_hidden0; [done|]. apply kept_hidden1; [|done].
  apply prefix_length in kept_heap0. lia.
Qed.

Lemma act_timeline (a : Action) (w : World) : TimelineKept w (runSync (act a) w).2.
Proof.
  destruct a; cbn.
  - destruct (preparation (request w)); by split.
  - destruct (_isTimelineOpen (room w)); cbn; [|done].
    destruct (_roomEncryption (room w)); cbn.
    all: split; [| |done]; unfold timelineShowsEntries, timelineEntries; cbn.
    all: try by (intros; split; constructor).
    all: by intros l _ ?%elem_of_nil.
  - destruct (_isTimelineOpen (room w)) eqn:Hopen; cbn; [done|].
    split; unfold timelineShowsEntries, timelineEntries; cbn.
    + intros _. split; [apply NoDup_seq|].
      apply Forall_forall. intros l Hl%elem_of_seq. rewrite length_app. lia.
    + intros l Hl Hin%elem_of_seq. lia.
    + by apply prefix_app_r.
  - by split.
Qed.

Lemma interfereAll_timeline (acts : list Action) (w : World) :
  TimelineKept w (interfereAll acts w).2.
Proof.
  revert w. induction acts as [|a acts IH]; intros w; cbn; [done|].
  pose proof (act_timeline a w) as Ha.
  destruct (runSync (act a) w) as [t1 w1]. specialize (IH w1).
  destruct (interfereAll acts w1) as [t2 w2]. cbn in *. by etrans.
Qed.

Lemma alloc_timeline (e : EventEntry) (w : World) :
  TimelineKept w (setHeap (heap w ++ [e]) w).
Proof.
  split; unfold timelineShowsEntries, timelineEntries; cbn; [|done|by apply prefix_app_r].
  intros [? Hall]. split; [done|].
  eapply Forall_impl; [done|]. cbn. intros l Hl. rewrite length_app. lia.
Qed.

Lemma eventIdsToEntries_timeline (txn : TxnId) (eventIds : list string) (env : Env)
    (n : nat) (w : World) :
  let r := run env n (_eventIdsToEntries eventIds txn) w in
  TimelineKept w (world r)
  ∧ ∀ ls, outcome r = Fulfilled ls → timelineShowsEntries w →
          Forall (λ l, l < length (heap (world r)) ∧ l ∉ timelineEntries (world r)) ls.
Proof.
  revert n w. induction eventIds as [|eventId eventIds IH]; intros n w.
  { cbn. split; [done|]. intros ls [= <-] _. constructor. }
  cbn.
  pose proof (interfereAll_timeline (interference env n) w) as Hk.
  destruct (interfereAll (interference env n) w) as [ti wi]. cbn [fst snd] in Hk.
  unfold settle. cbn. destruct (rejection env n) as [e|]; cbn.
  { split; [done|]. intros ls [=]. }
  destruct (getByEventId (committed (storage wi)) (_roomId (room w)) eventId)
    as [stored|]; cbn.
  - unfold mbind, Prog_bind. rewrite run_bind. unfold andThen. cbn.
    pose proof (alloc_timeline (newEventEntry stored) wi) as Ha.
    set (w1 := setHeap (heap wi ++ [newEventEntry stored]) wi) in *.
    destruct (IH (S n) w1) as [Hk1 Hls]. cbn in Hk1, Hls.
    destruct (outcome (run env (S n) (_eventIdsToEntries eventIds txn) w1))
      as [ls'|e] eqn:Hout; cbn.
    + split; [by repeat (etrans; [eassumption|])|]. intros ls [= <-] Hshows.
      assert (timelineShowsEntries wi) as Hwi; [by apply Hk|].
      constructor; [|apply Hls; [done|by apply Ha]].
      split.
      * destruct Hk1 as [_ _ Hp]. apply prefix_length in Hp.
        subst w1. cbn in Hp. rewrite length_app in Hp. cbn in Hp. lia.
      * intros Hin. apply Hk1 in Hin; [|subst w1; cbn; rewrite length_app; cbn; lia].
        destruct Hwi as [_ Hall]. rewrite Forall_forall in Hall.
        apply Hall in Hin. lia.
    + split; [by repeat (etrans; [eassumption|])|]. intros ls [=].
  - destruct (IH (S n) wi) as [Hk1 Hls]. cbn in Hk1, Hls.
    split; [by etrans|]. intros ls Hout Hshows. apply Hls; [done|by apply Hk].
Qed.

Lemma additionalTimelineRetryEntries_shown
    (w : World) (tl : Timeline) (others : list Loc) (roomKeys : list RoomKey) :
  _timeline (room w) = Some tl →
  additionalTimelineRetryEntries (heap w) tl others roomKeys `sublist_of` timelineEntries w.
Proof.
  intros Htl. unfold timelineEntries. rewrite Htl.
  unfold additionalTimelineRetryEntries, filterUndecryptedEventEntriesForKeys.
  etrans; apply sublist_filter.
Qed.

Lemma byOthers_calls (P : SyncCall → Prop) (held : option Preparation) (cs : list SyncCall) :
  (P TimelineDispose ∧ P NotifyTimelineClosed ∧ ∀ p, P (PreparationDispose p)) →
  Forall (λ c, c = TimelineDispose ∨ c = NotifyTimelineClosed
               ∨ ∃ p, held = Some p ∧ c = PreparationDispose p) cs →
  Forall P cs.
Proof.
  intros (Hd & Hc & Hp) Hcs. eapply Forall_impl; [done|].
  by intros c [->|[->|(p & _ & ->)]].
Qed.

(** X10: the decryption requests that [notifyRoomKey] starts are retries,
    and no entry object is twice in the batch of one: the entries made for
    the event ids are new objects, and the entries added from the live
    timeline are shown by it once. *)
Theorem notifyRoomKey_batch
    (roomKey : RoomKey) (eventIds : list string) (env : Env) (n : nat) (w : World) :
  timelineShowsEntries w →
  Forall retriesEachOnce (called (trace (run env n (notifyRoomKey roomKey eventIds) w))).
Proof.
  intros Hshows. unfold notifyRoomKey. cbn.
  destruct (_roomEncryption (room w)); cbn; [|done].
  pose proof (interfereAll_timeline (interference env n) w) as Hk.
  pose proof (interfereAll_spec (interference env n) w) as Hi.
  destruct (interfereAll (interference env n) w) as [ti wi]. cbn [fst snd] in Hk, Hi.
  assert (Forall retriesEachOnce (called ti)) as Hti.
  { eapply byOthers_calls; [done|apply Hi]. }
  unfold settle. cbn.
  destruct (rejection env n) as [e|]; cbn; autorewrite with shape; cbn [app]; [done|].
  apply Forall_app_2; [done|].
  unfold mbind at 1, Prog_bind. rewrite run_bind. unfold andThen.
  match goal with
  | |- context [run env (S n) (_eventIdsToEntries eventIds ?txn) ?w1] =>
      pose proof (eventIdsToEntries_run txn eventIds env (S n) w1) as [_ Hnew];
      pose proof (eventIdsToEntries_timeline txn eventIds env (S n) w1) as [Hk1 Hhid];
      pose proof (eventIdsToEntries_calls retriesEachOnce eventIds txn
                    ltac:(done) env (S n) w1) as Hcalls;
      assert (timelineShowsEntries w1) as Hw1 by (by apply Hk);
      destruct (run env (S n) (_eventIdsToEntries eventIds txn) w1)
        as [t1 k1 w2 [ls|e]]
  end; cbn in *; [|done].
  autorewrite with shape. apply Forall_app_2; [done|].
  destruct (Hnew ls eq_refl) as (_ & _ & Hnodup).
  specialize (Hhid ls eq_refl Hw1).
  assert (timelineShowsEntries w2) as [Hshown _] by (by apply Hk1).
  clear Hnew Hcalls Hti Hi.
  assert (∀ tl, _timeline (room w2) = Some tl →
                NoDup (ls ++ additionalTimelineRetryEntries (heap w2) tl ls [roomKey]))
    as Hbatch.
  { intros tl Htl.
    pose proof (additionalTimelineRetryEntries_shown w2 tl ls [roomKey] Htl) as Hsub.
    apply NoDup_app. split_and!; [done| |by eapply sublist_NoDup].
    intros l Hl Hin. rewrite Forall_forall in Hhid.
    destruct (Hhid l Hl) as [_ Hnot]. apply Hnot. by eapply elem_of_sublist. }
  unfold _isTimelineOpen.
  destruct (_timeline (room w2)) as [tl|] eqn:Htl; cbn; [rewrite Htl; cbn|].
  all: match goal with
       | |- Forall _ (called (trace (run _ _ ?p _))) =>
           cut (Calls retriesEachOnce p); [intros HC; apply HC|]
       end.
  all: repeat first
         [ lazymatch goal with
           | |- Calls _ (_decryptEntries _ _ _) =>
               apply decryptEntries_calls; [done|split; [done|by auto]|done..]
           end
         | progress calls ].
Qed.

Lemma notifyRoomKey_batch_witness :
  Forall retriesEachOnce
    (called (trace (run Sample.quiet 0
                      (notifyRoomKey Sample.key ["$e1"; "$e1"]%string) Sample.openWorld))).
Proof.
  apply notifyRoomKey_batch. split; [apply NoDup_singleton|].
  repeat constructor.
Defined.

(** ** The entries of a retry after a sync *)

Lemma madeSince_nil (w w' : World) : madeSince w w' [].
Proof. split; constructor. Qed.

Lemma madeSince_app (w0 w1 w2 : World) (ls1 ls2 : list Loc) :
  TimelineKept w0 w1 → TimelineKept w1 w2 →
  madeSince w0 w1 ls1 → madeSince w1 w2 ls2 → madeSince w0 w2 (ls1 ++ ls2).
Proof.
  intros [_ _ Hp1] [_ Hhid Hp2] [Hn1 Ha1] [Hn2 Ha2].
  apply prefix_length in Hp1, Hp2.
  rewrite Forall_forall in Ha1, Ha2. split.
  - apply NoDup_app. split_and!; [done| |done].
    intros l Hl1 Hl2. apply Ha1 in Hl1. apply Ha2 in Hl2. lia.
  - apply Forall_app. split; apply Forall_forall; intros l Hl.
    + destruct (Ha1 l Hl) as [? Hnot]. split; [lia|]. intros Hin. apply Hnot.
      apply Hhid; [lia|done].
    + destruct (Ha2 l Hl) as [? Hnot]. split; [lia|done].
Qed.

Lemma eventIdsToEntries_madeSince (txn : TxnId) (eventIds : list string) (env : Env)
    (n : nat) (w : World) (ls : list Loc) :
  let r := run env n (_eventIdsToEntries eventIds txn) w in
  timelineShowsEntries w → outcome r = Fulfilled ls → madeSince w (world r) ls.
Proof.
  intros r Hshows Hout.
  destruct (eventIdsToEntries_run txn eventIds env n w) as [_ Hnew].
  destruct (eventIdsToEntries_timeline txn eventIds env n w) as [_ Hhid].
  destruct (Hnew ls Hout) as (_ & Hlow & Hnodup). specialize (Hhid ls Hout Hshows).
  split; [done|]. rewrite Forall_forall in *. intros l Hl.
  specialize (Hlow l Hl). destruct (Hhid l Hl). cbn in *. by split_and!.
Qed.

Lemma concatEntries_from (acc : list Loc) (perKey : list (option (list Loc))) :
  foldl (λ allEntries found,
           match found with
           | Some found => allEntries ++ found
           | None => allEntries
           end) acc perKey
  = acc ++ concatEntries perKey.
Proof.
  unfold concatEntries. revert acc.
  induction perKey as [|found perKey IH]; intros acc; cbn; [by rewrite app_nil_r|].
  rewrite IH. destruct found as [found|]; [|done].
  by rewrite (IH found), app_assoc.
Qed.

Lemma concatEntries_cons (found : option (list Loc)) (perKey : list (option (list Loc))) :
  concatEntries (found :: perKey) = default [] found ++ concatEntries perKey.
Proof.
  unfold concatEntries at 1. cbn. rewrite concatEntries_from. by destruct found.
Qed.

Lemma entriesPerKey_run (txn : TxnId) (newKeys : list RoomKey) (env : Env) (n : nat)
    (w : World) :
  let r := run env n (entriesPerKey newKeys txn) w in
  TimelineKept w (world r)
  ∧ Undisturbed w (world r)
  ∧ ∀ perKey, outcome r = Fulfilled perKey → timelineShowsEntries w →
              madeSince w (world r) (concatEntries perKey).
Proof.
  revert n w. induction newKeys as [|key newKeys IH]; intros n w.
  { cbn. split_and!; [done..|]. intros ? [= <-] _. apply madeSince_nil. }
  cbn.
  pose proof (interfereAll_timeline (interference env n) w) as Hk.
  pose proof (interfereAll_frame (interference env n) w) as Hf.
  destruct (interfereAll (interference env n) w) as [ti wi]. cbn [fst snd] in Hk, Hf.
  unfold settle. cbn. destruct (rejection env n) as [e|]; cbn.
  { split_and!; [done..|]. intros ? [=]. }
  unfold mbind, Prog_bind.
  destruct (r_eventIds (reply env n)) as [retryEventIds|]; cbn.
  - rewrite !run_bind.
    pose proof (eventIdsToEntries_run txn retryEventIds env (S n) wi) as [Hf1 _].
    pose proof (eventIdsToEntries_timeline txn retryEventIds env (S n) wi) as [Hk1 _].
    pose proof (eventIdsToEntries_madeSince txn retryEventIds env (S n) wi) as Hmade.
    cbn in Hf1, Hk1, Hmade.
    destruct (run env (S n) (_eventIdsToEntries retryEventIds txn) wi)
      as [t1 n1 w1 [ls|e]]; unfold andThen; cbn in *.
    + rewrite run_bind.
      destruct (IH n1 w1) as (Hk2 & Hf2 & Hrest). cbn in Hk2, Hf2, Hrest.
      destruct (run env n1 (entriesPerKey newKeys txn) w1)
        as [t2 n2 w2 [others|e]]; unfold andThen; cbn in *.
      * split_and!; [by repeat (etrans; [eassumption|])..|].
        intros perKey [= <-] Hshows. rewrite concatEntries_cons. cbn.
        assert (timelineShowsEntries wi) as Hwi by (by apply Hk).
        assert (timelineShowsEntries w1) as Hw1 by (by apply Hk1).
        eapply (madeSince_app w w1 w2); [by etrans|done| |by apply Hrest].
        destruct (Hmade ls Hwi eq_refl) as [Hn Ha]. split; [done|].
        eapply Forall_impl; [done|]. cbn. intros l [? ?]. split; [|done].
        destruct Hf as [_ _ _ Hp _ _ _]. apply prefix_length in Hp. lia.
      * split_and!; [by repeat (etrans; [eassumption|])..|]. intros ? [=].
    + split_and!; [by etrans..|]. intros ? [=].
  - rewrite run_bind.
    destruct (IH (S n) wi) as (Hk2 & Hf2 & Hrest). cbn in Hk2, Hf2, Hrest.
    destruct (run env (S n) (entriesPerKey newKeys txn) wi)
      as [t2 n2 w2 [others|e]]; unfold andThen; cbn in *.
    + split_and!; [by etrans..|].
      intros perKey [= <-] Hshows. rewrite concatEntries_cons. cbn.
      assert (timelineShowsEntries wi) as Hwi by (by apply Hk).
      destruct (Hrest others eq_refl Hwi) as [Hn Ha]. split; [done|].
      eapply Forall_impl; [done|]. cbn. intros l [? ?]. split; [|done].
      destruct Hf as [_ _ _ Hp _ _ _]. apply prefix_length in Hp. lia.
    + split_and!; [by etrans..|]. intros ? [=].
Qed.

Lemma entriesPerKey_fulfils (txn : TxnId) (newKeys : list RoomKey) (env : Env) (n : nat)
    (w : World) :
  (∀ k, rejection env k = None) →
  ∃ perKey, outcome (run env n (entriesPerKey newKeys txn) w) = Fulfilled perKey.
Proof.
  intros Hrej. revert n w.
  induction newKeys as [|key newKeys IH]; intros n w; [by eexists|].
  cbn. destruct (interfereAll (interference env n) w) as [ti wi].
  unfold settle. rewrite Hrej. cbn. unfold mbind, Prog_bind.
  destruct (r_eventIds (reply env n)) as [retryEventIds|]; cbn.
  - rewrite !run_bind.
    destruct (eventIdsToEntries_fulfils txn retryEventIds env (S n) wi Hrej) as [ls Hls].
    unfold andThen. rewrite Hls. cbn.
    rewrite run_bind. unfold andThen.
    edestruct IH as [others ->]. cbn. by eexists.
  - rewrite run_bind. unfold andThen.
    edestruct IH as [others ->]. cbn. by eexists.
Qed.

(** Cloning entries that exist makes one new entry object for each, in
    order, with the content of the original. *)
Lemma clone_all (env : Env) (n : nat) (h : Heap) (originals : list Loc) (w : World) :
  h `prefix_of` heap w →
  Forall (λ l, l < length h) originals →
  run env n (mapM EventEntry_clone originals) w
  = {| trace := []; ticks := n;
       world := setHeap (heap w ++ omap (λ l, h !! l) originals) w;
       outcome := Fulfilled (seq (length (heap w)) (length originals)) |}.
Proof.
  revert w. induction originals as [|l originals IH]; intros w Hp Hall.
  { cbn. rewrite app_nil_r. by destruct w. }
  apply Forall_cons in Hall as [Hl Hall].
  cbn. destruct (h !! l) as [e|] eqn:He; [|apply lookup_ge_None in He; lia].
  assert (heap w !! l = Some e) as -> by (by eapply prefix_lookup_Some). cbn.
  unfold mbind, Prog_bind. rewrite run_bind, IH; [|by etrans; [|apply prefix_app_r]|done].
  unfold andThen, after. cbn. rewrite length_app, <- app_assoc. cbn.
  by rewrite Nat.add_1_r.
Qed.

Lemma copies_lookup (h : Heap) (originals : list Loc) (i : nat) (l : Loc) (e : EventEntry) :
  Forall (λ l, l < length h) originals →
  originals !! i = Some l → h !! l = Some e →
  omap (λ l, h !! l) originals !! i = Some e.
Proof.
  revert i. induction originals as [|l' originals IH]; intros i Hall Hi He.
  { by rewrite lookup_nil in Hi. }
  apply Forall_cons in Hall as [Hl' Hall].
  cbn. destruct (h !! l') as [e'|] eqn:He'; [|apply lookup_ge_None in He'; lia].
  destruct i as [|i]; cbn in *; [|by apply IH]. by simplify_eq.
Qed.

Lemma copies_length (h : Heap) (originals : list Loc) :
  Forall (λ l, l < length h) originals →
  length (omap (λ l, h !! l) originals) = length originals.
Proof.
  induction originals as [|l originals IH]; intros Hall; [done|].
  apply Forall_cons in Hall as [Hl Hall].
  cbn. destruct (h !! l) as [e|] eqn:He; [|apply lookup_ge_None in He; lia].
  cbn. by rewrite IH.
Qed.

Lemma alloc_all_timeline (es : list EventEntry) (w : World) :
  TimelineKept w (setHeap (heap w ++ es) w).
Proof.
  split; unfold timelineShowsEntries, timelineEntries; cbn; [|done|by apply prefix_app_r].
  intros [? Hall]. split; [done|].
  eapply Forall_impl; [done|]. cbn. intros l Hl. rewrite length_app. lia.
Qed.

(** X11: on an encrypted room, when none of its lookups fails,
    [_getSyncRetryDecryptEntries] returns entry objects that were all made
    during the call, each once, and none of which the live timeline shows:
    the entries for the stored event ids are new objects and the entries
    taken from the timeline are copies.
    The entries that existed before are as they were, and every entry that
    the timeline shows and that is blocked on one of the new keys has an
    entry with its event id in the batch. *)
Theorem getSyncRetryDecryptEntries_copies
    (newKeys : list RoomKey) (txn : TxnId) (env : Env) (n : nat) (w : World) :
  _roomEncryption (room w) = true →
  (∀ k, rejection env k = None) →
  timelineShowsEntries w →
  let r := run env n (_getSyncRetryDecryptEntries newKeys txn) w in
  ∃ ls, outcome r = Fulfilled ls
        ∧ madeSince w (world r) ls
        ∧ heap w `prefix_of` heap (world r)
        ∧ Forall (λ shown,
                    ∀ e, heap (world r) !! shown = Some e → blockedOnKeys newKeys e = true →
                         ∃ l, l ∈ ls ∧ idAt (heap (world r)) l = Some (entryId e))
                 (timelineEntries (world r)).
Proof.
  intros _ Hrej Hshows. unfold _getSyncRetryDecryptEntries. cbn.
  unfold mbind, Prog_bind. rewrite run_bind.
  destruct (entriesPerKey_fulfils txn newKeys env n w Hrej) as [perKey Hout].
  destruct (entriesPerKey_run txn newKeys env n w) as (Hk & Hf & Hmade).
  cbn in Hk, Hf, Hmade.
  destruct (run env n (entriesPerKey newKeys txn) w) as [t1 n1 w1 o1].
  cbn in *. subst o1. specialize (Hmade perKey eq_refl Hshows).
  unfold andThen. cbn.
  assert (timelineShowsEntries w1) as Hw1 by (by apply Hk).
  unfold _isTimelineOpen.
  destruct (_timeline (room w1)) as [tl|] eqn:Htl; cbn.
  2:{ eexists. split_and!; [done|done|apply Hf|].
      unfold timelineEntries. by rewrite Htl. }
  rewrite Htl. cbn.
  set (retryEntries := concatEntries perKey) in *.
  set (shown := additionalTimelineRetryEntries (heap w1) tl retryEntries newKeys).
  pose proof (additionalTimelineRetryEntries_shown w1 tl retryEntries newKeys Htl) as Hsub.
  fold shown in Hsub.
  assert (Forall (λ l, l < length (heap w1)) shown) as Hvalid.
  { destruct Hw1 as [_ Hall]. rewrite Forall_forall in *. intros l Hl.
    apply Hall. by eapply elem_of_sublist. }
  rewrite run_bind, (clone_all env n1 (heap w1) shown w1) by done.
  unfold andThen, after. cbn.
  set (copies := omap (λ l, heap w1 !! l) shown).
  assert (length copies = length shown) as Hlen by (by apply copies_length).
  pose proof (alloc_all_timeline copies w1) as Hk2.
  eexists. split_and!; [done| |by etrans; [apply Hf|apply prefix_app_r]|].
  - eapply (madeSince_app w w1); [done|done|done|].
    split; [apply NoDup_seq|]. apply Forall_forall. intros l Hl%elem_of_seq. cbn.
    rewrite length_app, Hlen. split; [lia|].
    unfold timelineEntries. cbn. rewrite Htl. intros Hin.
    destruct Hw1 as [_ Hall]. rewrite Forall_forall in Hall.
    unfold timelineEntries in Hall. rewrite Htl in Hall. apply Hall in Hin. lia.
  - unfold timelineEntries. cbn. rewrite Htl.
    apply Forall_forall. intros l0 Hl0 e He Hblocked.
    assert (l0 < length (heap w1)) as Hlt.
    { destruct Hw1 as [_ Hall]. rewrite Forall_forall in Hall. apply Hall.
      unfold timelineEntries. by rewrite Htl. }
    assert (heap w1 !! l0 = Some e) as He1.
    { etrans; [symmetry; apply (lookup_app_l (heap w1) copies l0 Hlt)|done]. }
    destruct (hasId (existingIdsOf (heap w1) retryEntries) (heap w1) l0) eqn:Hhas.
    + unfold hasId, idAt in Hhas. rewrite He1 in Hhas. cbn in Hhas.
      apply bool_decide_eq_true, elem_of_existingIdsOf in Hhas as (l & Hl & Hid).
      exists l. split; [apply elem_of_app; by left|].
      unfold idAt in *. destruct (heap w1 !! l) as [e'|] eqn:He'; [|done].
      etrans; [|exact Hid]. f_equal. by apply lookup_app_l_Some.
    + assert (l0 ∈ shown) as Hin.
      { unfold shown, additionalTimelineRetryEntries, filterUndecryptedEventEntriesForKeys.
        rewrite !list_elem_of_filter.
        split_and!; [done|by rewrite He1; cbn; rewrite Hblocked|done]. }
      apply list_elem_of_lookup in Hin as [i Hi].
      exists (length (heap w1) + i). split.
      * apply elem_of_app. right. apply elem_of_seq.
        apply lookup_lt_Some in Hi. lia.
      * unfold idAt.
        assert ((heap w1 ++ copies) !! (length (heap w1) + i) = Some e) as Hcopy.
        { etrans; [apply lookup_app_r; lia|].
          replace (length (heap w1) + i - length (heap w1)) with i by lia.
          by apply (copies_lookup _ _ _ l0). }
        etrans; [apply (f_equal (fmap entryId) Hcopy)|done].
Qed.

Lemma getSyncRetryDecryptEntries_copies_witness :
  let r := run Sample.quiet 0 (_getSyncRetryDecryptEntries [Sample.key] 0) Sample.openWorld in
  outcome r = Fulfilled [1]
  ∧ ∃ ls, outcome r = Fulfilled ls ∧ madeSince Sample.openWorld (world r) ls.
Proof.
  intros r. split; [reflexivity|].
  destruct (getSyncRetryDecryptEntries_copies
              [Sample.key] 0 Sample.quiet 0 Sample.openWorld) as (ls & Hout & Hmade & _).
  - done.
  - done.
  - split; [apply NoDup_singleton|]. repeat constructor.
  - by exists ls.
Defined.

(** ** Opening the timeline when loading fails *)

(** X12: when [load] of the timeline fails, [openTimeline] rejects and
    leaves no timeline open, so that the timeline can be opened again; if
    nothing else ran while it was loading, the timeline is disposed, the
    error is the one [load] failed with, and the encryption is told that the
    timeline was closed exactly when the room is encrypted. *)
Theorem openTimeline_load_failure (env : Env) (n : nat) (w : World) (e : Error) :
  _isTimelineOpen (room w) = false →
  rejection env n = Some e →
  let r := run env n openTimeline w in
  (∃ err, outcome r = Rejected err)
  ∧ _timeline (room (world r)) = None
  ∧ issued (trace r) = [TimelineLoad]
  ∧ (interference env n = [] →
     outcome r = Rejected e
     ∧ TimelineDispose ∈ called (trace r)
     ∧ (NotifyTimelineClosed ∈ called (trace r) ↔ _roomEncryption (room w) = true)).
Proof.
  intros Hclosed Hrej r. remember r as r' eqn:Hr. subst r.
  unfold openTimeline in Hr. cbn in Hr. rewrite Hclosed in Hr. cbn in Hr.
  destruct (_roomEncryption (room w)) eqn:Henc; cbn in Hr.
  all: match type of Hr with
       | context [interfereAll ?a ?w0] =>
           assert (a = [] → interfereAll a w0 = ([], w0)) as Hq by (by intros ->)
       end.
  all: interfere_in Hr; unfold settle in Hr; rewrite Hrej in Hr; cbn in Hr.
  all: repeat branch_in Hr.
  all: subst r'; autorewrite with shape; cbn [app]; frames.
  all: try congruence.
  all: split_and!; [by eexists| |done|intros Hquiet].
  all: try done.
  all: try by (unfold _isTimelineOpen in *; destruct (_timeline (room wi))).
  all: specialize (Hq Hquiet); injection Hq as -> ->; try discriminate.
  all: autorewrite with shape; cbn [app].
  all: split_and!; [done|find_elem|].
  all: split; [intros Hin|intros Heq].
  all: try done; try find_elem.
  all: locate Hin.
Qed.

Lemma openTimeline_load_failure_witness :
  let r := run (Sample.failingAt 0) 0 openTimeline Sample.oneEntryWorld in
  outcome r = Rejected (Failure 1) ∧ _timeline (room (world r)) = None.
Proof.
  intros r.
  destruct (openTimeline_load_failure (Sample.failingAt 0) 0 Sample.oneEntryWorld (Failure 1))
    as (_ & Hnone & _ & Hquiet); [done..|].
  split; [by apply Hquiet|done].
Defined.

(** X13: when [load] succeeds, [openTimeline] fulfils with what
    [this._timeline] is at that time; it enables encryption on the timeline,
    with source [Timeline], exactly when the room is encrypted, and while it
    is suspended on [load] the room's timeline is the new, still empty one.
    If nothing else ran while it was loading, the result is the timeline
    that it made, now showing the loaded entries, which are new entry
    objects. *)
Theorem openTimeline_loads (env : Env) (n : nat) (w : World) :
  _isTimelineOpen (room w) = false →
  rejection env n = None →
  let r := run env n openTimeline w in
  outcome r = Fulfilled (_timeline (room (world r)))
  ∧ issued (trace r) = [TimelineLoad]
  ∧ (TimelineEnableEncryption TimelineSource ∈ called (trace r)
     ↔ _roomEncryption (room w) = true)
  ∧ (∀ w0 k, (w0, Awaited k TimelineLoad) ∈ trace r →
             _timeline (room w0) = Some {| remoteEntries := [] |})
  ∧ (interference env n = [] →
     _timeline (room (world r))
     = Some {| remoteEntries :=
                 seq (length (heap w)) (length (r_newEntries (reply env n))) |}
     ∧ heap (world r) = heap w ++ r_newEntries (reply env n)).
Proof.
  intros Hclosed Hrej r. remember r as r' eqn:Hr. subst r.
  unfold openTimeline in Hr. cbn in Hr. rewrite Hclosed in Hr. cbn in Hr.
  destruct (_roomEncryption (room w)) eqn:Henc; cbn in Hr.
  all: match type of Hr with
       | context [interfereAll ?a ?w0] =>
           assert (a = [] → interfereAll a w0 = ([], w0)) as Hq by (by intros ->)
       end.
  all: interfere_in Hr; unfold settle in Hr; rewrite Hrej in Hr; cbn in Hr.
  all: destruct (_timeline (room wi)) as [tl|] eqn:Htl; cbn in Hr.
  all: subst r'; autorewrite with shape; cbn [app]; frames.
  all: split_and!; [done|done| | |intros Hquiet].
  all: try (specialize (Hq Hquiet); injection Hq as -> ->; cbn in Htl; simplify_eq; done).
  all: try (split; [intros Hin|intros Heq]; try done; try find_elem).
  all: try (intros w0 k Hin; locate_eq Hin; try not_awaited Hin; done).
  all: apply elem_of_cons in Hin as [?|Hin]; [discriminate|].
  all: match goal with
       | Hothers : Forall _ (called ?ti), Hin : _ ∈ called ?ti |- _ =>
           rewrite Forall_forall in Hothers;
           by destruct (Hothers _ Hin) as [?|[?|(? & _ & ?)]]
       end.
Qed.

Lemma openTimeline_loads_witness :
  let r := run Sample.quiet 0 openTimeline Sample.oneEntryWorld in
  outcome r = Fulfilled (Some {| remoteEntries := [] |})
  ∧ TimelineEnableEncryption TimelineSource ∈ called (trace r).
Proof.
  intros r.
  destruct (openTimeline_loads Sample.quiet 0 Sample.oneEntryWorld)
    as (Hout & _ & Henc & _ & Hquiet); [done..|].
  fold r in Hout, Henc, Hquiet. destruct (Hquiet eq_refl) as [Htl _].
  split; [by rewrite Hout, Htl|by apply Henc].
Defined.

(** ** Updating memory after a gap fill *)

Lemma others_keepsTxns (held : option Preparation) (st0 st : Storage) (ti : Trace) :
  txns st0 `prefix_of` txns st →
  Forall (interferenceStep held st) ti → Forall (keepsTxns st0) ti.
Proof.
  intros Hp H. eapply Forall_impl; [done|]. intros [w0 o] (_ & Hst & _).
  unfold keepsTxns. cbn in *. by rewrite Hst.
Qed.

(** As [frames], keeping what is known of the storage that other tasks left. *)
Ltac frames_storage :=
  repeat match goal with
         | H : Interference _ _ _ |- _ =>
             let Hf := fresh "Hf" in
             destruct H as [Hf ? ? ? ? ?]; destruct Hf; cbn in *
         end;
  repeat match goal with
         | H : storage ?wi = _ |- _ => is_var wi; rewrite H in *; revert H
         end;
  intros;
  repeat match goal with
         | H : ?a = ?b → _, H' : ?a = ?b |- _ => specialize (H H')
         end.

Ltac keeps_txns :=
  repeat first
    [ apply Forall_nil_2
    | apply Forall_app_2; [eapply others_keepsTxns; [|eassumption]|]
    | eapply others_keepsTxns; [|eassumption]
    | apply Forall_cons_2; [unfold keepsTxns; cbn|]
    | match goal with
      | H : storage ?wi = _ |- context [storage ?wi] => rewrite H; cbn
      end
    | done
    | apply prefix_app_r ].

Lemma decryptEntries_keeps
    (env : Env) (n : nat) (w : World) (source : DecryptionSource)
    (batch : list Loc) (inboundSessionTxn : option TxnId) :
  let r := run env n (_decryptEntries source batch inboundSessionTxn) w in
  Forall (keepsTxns (storage w)) (trace r)
  ∧ txns (storage w) `prefix_of` txns (storage (world r))
  ∧ _fragmentIdComparer (room (world r)) = _fragmentIdComparer (room w)
  ∧ ((∀ k, rejection env k = None) → outcome r = Fulfilled tt)
  ∧ NewDecryptionRequest source batch ∈ called (trace r).
Proof.
  intros r. remember r as r' eqn:Hr. subst r.
  unfold _decryptEntries, writeDecryptionChanges in Hr.
  destruct inboundSessionTxn as [txn|]; cbn in Hr.
  all: explore_in Hr.
  all: subst r'; autorewrite with shape; cbn [app].
  all: frames_storage.
  all: unfold txnIsOpen, txnComplete, txnAbort, txnPut in *.
  all: storage_norm.
  all: try discriminate.
  all: split_and!; [|try done; try (apply prefix_app_r; done)|congruence|
                    intros Hnone; try done; congruence|apply list_elem_of_here].
  all: keeps_txns.
Qed.

Lemma others_afterCommitOf
    (txn : TxnId) (held : option Preparation) (st : Storage) (ti : Trace) :
  Forall (interferenceStep held st) ti → Forall (afterCommitOf txn) ti.
Proof.
  intros H. eapply Forall_impl; [done|]. intros [w0 o] (_ & _ & Ho).
  unfold afterCommitOf. cbn in *. destruct o as [c| |]; try done.
  by destruct Ho as [->|[->|(p & _ & ->)]].
Qed.

Lemma kept_afterCommitOf (txn : TxnId) (st : Storage) (t : Trace) :
  (txn_status <$> txns st !! txn) = Some TxnCommitted →
  Forall (keepsTxns st) t → Forall (afterCommitOf txn) t.
Proof.
  intros Hc H. eapply Forall_impl; [done|]. intros [w0 o] Hp.
  unfold afterCommitOf, keepsTxns in *. cbn in *. destruct o as [c| |]; try done.
  intros _. destruct (txns st !! txn) as [tx|] eqn:Htx; [|done].
  assert (txns (storage w0) !! txn = Some tx) as -> by (by eapply prefix_lookup_Some).
  done.
Qed.

(** The end of [fillGap], from the loop over the fragments on. *)
Lemma gapFill_applied
    (env : Env) (n : nat) (p : Prog unit) (w : World) (txn : TxnId)
    (fs : list Fragment) (extraGapFillChanges : option GapFillChanges)
    (updated created : list Loc) :
  p = bind (forEach fs (λ fragment, call (ComparerAdd fragment)))
        (λ _, bind match extraGapFillChanges with
                   | Some changes => call (ApplyGapFill changes)
                   | None => Ret tt
                   end
                (λ _, Read (λ w, if _isTimelineOpen (room w)
                                 then Call (TimelineReplaceEntries updated)
                                        (call (TimelineAddOrReplaceEntries created))
                                 else Ret tt))) →
  (txn_status <$> txns (storage w) !! txn) = Some TxnCommitted →
  let r := run env n p w in
  Forall (afterCommitOf txn) (trace r)
  ∧ outcome r = Fulfilled tt
  ∧ storage (world r) = storage w
  ∧ _fragmentIdComparer (room (world r)) = _fragmentIdComparer (room w) ++ fs
  ∧ ComparerAdd <$> fs `sublist_of` called (trace r).
Proof.
  intros -> Hc. revert w Hc. induction fs as [|f fs IH]; intros w Hc.
  - cbn. rewrite app_nil_r.
    destruct extraGapFillChanges as [changes|]; cbn.
    all: destruct (_isTimelineOpen (room w)); cbn.
    all: autorewrite with shape; cbn [app].
    all: split_and!; try done; try apply sublist_nil_l.
    all: repeat (apply Forall_cons_2; [intros _; exact Hc|]); done.
  - destruct (IH (setRoom (addFragment f (room w)) w) Hc) as (Hall & Hout & Hst & Hcmp & Hsub).
    cbn. autorewrite with shape. cbn [app].
    split_and!; try done.
    + apply Forall_cons_2; [intros _; exact Hc|done].
    + rewrite Hcmp. cbn. by rewrite <- app_assoc.
    + by apply sublist_skip.
Qed.

Ltac after_commit :=
  repeat first
    [ apply Forall_nil_2
    | assumption
    | apply Forall_app_2; [by eapply others_afterCommitOf|]
    | by eapply others_afterCommitOf
    | apply Forall_app_2;
      [ eapply kept_afterCommitOf;
        [|eassumption]; exact (f_equal (fmap txn_status) (lookup_snoc _ _)) |]
    | eapply kept_afterCommitOf;
      [|eassumption]; exact (f_equal (fmap txn_status) (lookup_snoc _ _))
    | apply Forall_cons_2; [first [exact I | by intros ?]|] ].

(** X14: whatever happens during a gap fill, what is in memory (the
    fragment comparer, the pending events, the timeline, the entries) is
    only updated in a world where the transaction of the gap fill is
    committed. *)
Theorem fillGap_updates_after_commit
    (env : Env) (n : nat) (w : World) (fragmentEntry : FragmentEntry) (amount : nat) :
  let r := run env n (fillGap fragmentEntry amount) w in
  Forall (afterCommitOf (length (txns (storage w)))) (trace r).
Proof.
  intros r. remember r as r' eqn:Hr. subst r.
  unfold fillGap in Hr. cbn in Hr.
  explore_in Hr.
  all: try match type of Hr with
           | context [run _ _ (_decryptEntries _ _ _ ≫= _) _] =>
               unfold mbind at 1, Prog_bind in Hr; rewrite run_bind in Hr
           end.
  all: frames_storage.
  all: unfold txnIsOpen, txnComplete, txnAbort, txnPut in *.
  all: storage_norm.
  all: try discriminate.
  all: try match type of Hr with
           | context [run ?e ?k (_decryptEntries ?s ?b ?t) ?w1] =>
               pose proof (decryptEntries_keeps e k w1 s b t) as (Hkeep & Hkept & _);
               destruct (run e k (_decryptEntries s b t) w1) as [t1 k1 w2 [[]|err]];
               unfold andThen in Hr; cbn in Hkeep, Hkept, Hr
           end.
  all: try match type of Hr with
           | context [run ?e ?k ?p ?w1] =>
               edestruct (gapFill_applied e k p w1 (length (txns (storage w))))
                 as (Htail & _); [reflexivity| |]
           end.
  all: try match goal with
           | |- (txn_status <$> _ !! _) = Some TxnCommitted =>
               first [ storage_norm; done
                     | exact (f_equal (fmap txn_status)
                                (prefix_lookup_Some _ _ _ _ (lookup_snoc _ _) Hkept)) ]
           end.
  all: subst r'; autorewrite with shape; cbn [app trace].
  all: after_commit.
Qed.

(** X15: a gap fill none of whose steps fails, on a fragment whose edge is
    not reached, fulfils with its transaction committed and with the
    fragments of the result added to the fragment comparer, in order, after
    those it had; on an encrypted room it has started a decryption request
    with source [Timeline] for the new entries. *)
Theorem fillGap_completes
    (env : Env) (n : nat) (w : World) (fragmentEntry : FragmentEntry) (amount : nat) :
  edgeReached fragmentEntry = false →
  (∀ k, rejection env k = None) →
  let r := run env n (fillGap fragmentEntry amount) w in
  let added := r_fragments (reply env (3 + n)) in
  outcome r = Fulfilled tt
  ∧ (txn_status <$> txns (storage (world r)) !! length (txns (storage w)))
    = Some TxnCommitted
  ∧ _fragmentIdComparer (room (world r)) = _fragmentIdComparer (room w) ++ added
  ∧ ComparerAdd <$> added `sublist_of` called (trace r)
  ∧ (_roomEncryption (room w) = true →
     ∃ batch, NewDecryptionRequest TimelineSource batch ∈ called (trace r)).
Proof.
  intros Hedge Hnone r. remember r as r' eqn:Hr. subst r.
  unfold fillGap in Hr. cbn in Hr. rewrite Hedge in Hr. cbn in Hr.
  explore_in Hr.
  all: try congruence.
  all: try match type of Hr with
           | context [run _ _ (_decryptEntries _ _ _ ≫= _) _] =>
               unfold mbind at 1, Prog_bind in Hr; rewrite run_bind in Hr
           end.
  all: frames_storage.
  all: unfold txnIsOpen, txnComplete, txnAbort, txnPut in *.
  all: storage_norm.
  all: try discriminate.
  all: try match type of Hr with
           | context [run ?e ?k (_decryptEntries ?s ?b ?t) ?w1] =>
               pose proof (decryptEntries_keeps e k w1 s b t)
                 as (_ & Hkept & Hcmp & Hout & Hnew);
               specialize (Hout Hnone);
               destruct (run e k (_decryptEntries s b t) w1) as [t1 k1 w2 o];
               cbn in Hkept, Hcmp, Hout, Hnew; subst o;
               unfold andThen in Hr; cbn in Hr
           end.
  all: match type of Hr with
       | context [run ?e ?k ?p ?w1] =>
           assert ((txn_status <$> txns (storage w1) !! length (txns (storage w)))
                   = Some TxnCommitted) as Hc
             by (first [ storage_norm; done
                       | exact (f_equal (fmap txn_status)
                                  (prefix_lookup_Some _ _ _ _ (lookup_snoc _ _) Hkept)) ]);
           pose proof (gapFill_applied e k p w1 _ _ _ _ _ eq_refl Hc)
             as (_ & Hdone & Hst & Hadded & Hsub);
           destruct (run e k p w1) as [t2 k2 w3 o2];
           cbn in Hdone, Hst, Hadded, Hsub, Hr; subst o2
       end.
  all: subst r'; autorewrite with shape; cbn [app trace world outcome].
  all: split_and!; [done|by rewrite Hst|cbn in *; congruence| |intros Henc].
  all: try congruence.
  all: try (eexists;
            solve [ repeat first [ apply elem_of_app; left; exact Hnew
                                 | apply list_elem_of_further
                                 | apply elem_of_app; right ] ]).
  all: repeat first [ exact Hsub | apply sublist_cons | apply sublist_inserts_l ].
Qed.

Lemma fillGap_completes_witness :
  let r := run Sample.quiet 0 (fillGap (Sample.gap false) 20) Sample.oneEntryWorld in
  outcome r = Fulfilled tt
  ∧ (txn_status <$> txns (storage (world r)) !! 1) = Some TxnCommitted
  ∧ ∃ batch, NewDecryptionRequest TimelineSource batch ∈ called (trace r).
Proof.
  intros r.
  destruct (fillGap_completes Sample.quiet 0 Sample.oneEntryWorld (Sample.gap false) 20)
    as (Hout & Hcommitted & _ & _ & Hnew); [done..|].
  split_and!; [done|done|by apply Hnew].
Defined.
